(** * MDTOPDFRAG: the file-aggregation and format-conversion pipeline of [src/App.tsx]

    The development embeds the pure part of the converter (the CSV tokenizer, the
    Markdown table builder, the heading synthesizer, the JSON output) and the state
    transitions of the upload handler, and proves the properties the specification
    states about them.

    JavaScript strings are sequences of UTF-16 code units; they are modelled as
    lists of [N].  The regular expressions of the source are kept as syntax trees
    and run by a backtracking matcher that follows the priority order of the
    ECMAScript matcher, so that every pattern of the source is transcribed, not
    re-implemented. *)

From Stdlib Require Import String Ascii.
From Stdlib Require Import List NArith ZArith Arith Lia Bool DecimalString.
Import ListNotations.
Local Open Scope string_scope.
Local Open Scope N_scope.
Local Open Scope nat_scope.
Local Open Scope list_scope.

Set Implicit Arguments.

(** ** Strings *)

Module Js.

Definition char := N.
Definition str := list char.

(** [lit] turns a source literal into its code units. *)
Definition lit (s : string) : str := map N_of_ascii (list_ascii_of_string s).

Definition dq : char := 34%N.      (* the double quote *)
Definition comma : char := 44%N.
Definition bs : char := 92%N.      (* the backslash *)
Definition nl : char := 10%N.      (* \n *)
Definition cr : char := 13%N.      (* \r *)
Definition pipe : char := 124%N.
Definition dot : char := 46%N.

Definition eqb_str (a b : str) : bool :=
  if list_eq_dec N.eq_dec a b then true else false.

Definition is_nil {A : Type} (l : list A) : bool :=
  match l with [] => true | _ => false end.

(** WhiteSpace and LineTerminator code units (ECMA-262, 12.2 and 12.3): what
    [String.prototype.trim] strips. *)
Definition is_ws (c : char) : bool :=
  ((9 <=? c) && (c <=? 13))%N
  || (c =? 32)%N || (c =? 160)%N || (c =? 5760)%N
  || ((8192 <=? c) && (c <=? 8202))%N
  || (c =? 8232)%N || (c =? 8233)%N || (c =? 8239)%N || (c =? 8287)%N
  || (c =? 12288)%N || (c =? 65279)%N.

Fixpoint trim_start (s : str) : str :=
  match s with
  | c :: t => if is_ws c then trim_start t else s
  | [] => []
  end.

Definition trim_end (s : str) : str := rev (trim_start (rev s)).

(** [s.trim()] *)
Definition trim (s : str) : str := trim_end (trim_start s).

(** [parts.join(sep)] *)
Fixpoint join (sep : str) (parts : list str) : str :=
  match parts with
  | [] => []
  | [x] => x
  | x :: rest => x ++ sep ++ join sep rest
  end.

(** ** Regular expressions *)

Inductive class_item :=
| CChar (c : char)              (* a single class member *)
| CRange (lo hi : char).        (* lo-hi *)

(** Pattern syntax.  [(?: )] groups are plain nesting; capturing groups carry the
    number the pattern gives them. *)
Inductive regex :=
| Empty
| Char (c : char)
| Class (negated : bool) (items : list class_item)
| Seq (r1 r2 : regex)
| Alt (r1 r2 : regex)
| Star (r : regex)              (* r*, greedy *)
| Opt (r : regex)               (* r?, greedy *)
| Group (i : nat) (r : regex)
| Eol.                          (* $ without the m flag: end of input *)

(** A point of a match in progress: the input still to read and the captures
    made so far (most recent first). *)
Record mstate := MState { m_rest : str; m_caps : list (nat * str) }.

Fixpoint capture (i : nat) (caps : list (nat * str)) : option str :=
  match caps with
  | [] => None
  | (j, v) :: rest => if Nat.eqb i j then Some v else capture i rest
  end.

(** Canonicalize (ECMA-262, 22.2.5.6) without the u flag maps a code unit to its
    upper case under the i flag.  A code unit above 127 never canonicalizes to
    one below 128, and the case-insensitive patterns of this program hold ASCII
    only, so the mapping is written out for ASCII and is the identity elsewhere:
    the matches are the same. *)
Definition canonicalize (ic : bool) (c : char) : char :=
  if ic && ((97 <=? c) && (c <=? 122))%N then (c - 32)%N else c.

Definition swap_case (c : char) : char :=
  if ((97 <=? c) && (c <=? 122))%N then (c - 32)%N
  else if ((65 <=? c) && (c <=? 90))%N then (c + 32)%N else c.

Definition item_matches (ic : bool) (c : char) (it : class_item) : bool :=
  match it with
  | CChar x => (canonicalize ic x =? canonicalize ic c)%N
  | CRange lo hi =>
      ((lo <=? c) && (c <=? hi))%N
      || (ic && ((lo <=? swap_case c) && (swap_case c <=? hi))%N)
  end.

Definition class_matches (ic negated : bool) (items : list class_item) (c : char) : bool :=
  xorb negated (existsb (item_matches ic c) items).

(** The text a sub-match consumed between two points of the same input. *)
Definition consumed (before after : mstate) : str :=
  firstn (length (m_rest before) - length (m_rest after)) (m_rest before).

Definition progressed (before after : mstate) : bool :=
  length (m_rest after) <? length (m_rest before).

(** Greedy iteration: one more round of the body first, then stopping here.  A
    round that consumes nothing is discarded, as RepeatMatcher does, so [fuel]
    rounds are enough on an input of [fuel] code units. *)
Fixpoint star_iter (body : mstate -> list mstate) (fuel : nat) (st : mstate)
  : list mstate :=
  match fuel with
  | O => [st]
  | S fuel' =>
      flat_map (fun st' => if progressed st st' then star_iter body fuel' st' else [])
               (body st)
      ++ [st]
  end.

(** [rmatch ic r st] lists the ways [r] matches at [st], in the order in which
    the backtracking matcher tries them; the head is the match it reports. *)
Fixpoint rmatch (ic : bool) (r : regex) (st : mstate) : list mstate :=
  match r with
  | Empty => [st]
  | Char c =>
      match m_rest st with
      | x :: t =>
          if (canonicalize ic x =? canonicalize ic c)%N
          then [MState t (m_caps st)] else []
      | [] => []
      end
  | Class negated items =>
      match m_rest st with
      | x :: t =>
          if class_matches ic negated items x then [MState t (m_caps st)] else []
      | [] => []
      end
  | Seq r1 r2 => flat_map (rmatch ic r2) (rmatch ic r1 st)
  | Alt r1 r2 => rmatch ic r1 st ++ rmatch ic r2 st
  | Star r1 => star_iter (rmatch ic r1) (length (m_rest st)) st
  | Opt r1 => filter (progressed st) (rmatch ic r1 st) ++ [st]
  | Group i r1 =>
      map (fun st' => MState (m_rest st') ((i, consumed st st') :: m_caps st'))
          (rmatch ic r1 st)
  | Eol => match m_rest st with [] => [st] | _ => [] end
  end.

(** The patterns of this program look neither behind nor at a start anchor, so
    a match attempt at an index depends on the input from that index on only.
    [exec_from] is RegExpBuiltinExec started at the head of [s]: it returns the
    text skipped before the leftmost match and the final match state. *)
Fixpoint exec_from (ic : bool) (r : regex) (s : str) : option (str * mstate) :=
  match rmatch ic r (MState s []) with
  | st :: _ => Some ([], st)
  | [] =>
      match s with
      | [] => None
      | c :: t =>
          match exec_from ic r t with
          | Some (skipped, st) => Some (c :: skipped, st)
          | None => None
          end
      end
  end.

(** [regex.test(s)] for a pattern without the g flag *)
Definition test (ic : bool) (r : regex) (s : str) : bool :=
  match exec_from ic r s with Some _ => true | None => false end.

(** [s.replace(regex, ...)] for a pattern without the g flag: the leftmost match
    is replaced. *)
Definition replace_first (ic : bool) (r : regex) (repl : mstate -> str) (s : str) : str :=
  match exec_from ic r s with
  | Some (skipped, st) => skipped ++ repl st ++ m_rest st
  | None => s
  end.

(** [s.replace(regex, ...)] for a pattern with the g flag: matches are replaced
    from left to right; after an empty match the scan resumes one code unit
    further. *)
Fixpoint replace_loop (fuel : nat) (ic : bool) (r : regex) (repl : mstate -> str)
  (s : str) : str :=
  match fuel with
  | O => s
  | S fuel' =>
      match exec_from ic r s with
      | None => s
      | Some (skipped, st) =>
          let after := skipn (length skipped) s in
          if length (m_rest st) <? length after
          then skipped ++ repl st ++ replace_loop fuel' ic r repl (m_rest st)
          else
            match m_rest st with
            | [] => skipped ++ repl st
            | c :: t => skipped ++ repl st ++ c :: replace_loop fuel' ic r repl t
            end
      end
  end.

Definition replace_all (ic : bool) (r : regex) (repl : mstate -> str) (s : str) : str :=
  replace_loop (S (length s)) ic r repl s.

(** [s.split(regex)] (ECMA-262, 22.2.6.14) for a separator pattern without
    capture groups.  [piece] is the text since the last separator, [skip] counts
    the code units of the separator just matched that are still to pass. *)
Fixpoint split_scan (ic : bool) (r : regex) (piece : str) (skip : nat) (s : str)
  : list str :=
  match s with
  | [] => [piece]
  | c :: t =>
      match skip with
      | S k => split_scan ic r piece k t
      | O =>
          match rmatch ic r (MState s []) with
          | [] => split_scan ic r (piece ++ [c]) 0 t
          | st :: _ =>
              match length s - length (m_rest st) with
              | O =>
                  if is_nil piece then split_scan ic r [c] 0 t
                  else piece :: split_scan ic r [c] 0 t
              | S k => piece :: split_scan ic r [] k t
              end
          end
      end
  end.

Definition split (ic : bool) (r : regex) (s : str) : list str :=
  match s with
  | [] => match rmatch ic r (MState [] []) with [] => [[]] | _ => [] end
  | _ => split_scan ic r [] 0 s
  end.

End Js.

Import Js.

(** A small error monad: [None] stands for an exception or for a loop that
    used up its fuel. *)
Notation "x <- c ;; k" :=
  (match c with Some x => k | None => None end)
  (at level 61, c at next level, right associativity).

Fixpoint mapM {A B : Type} (f : A -> option B) (l : list A) : option (list B) :=
  match l with
  | [] => Some []
  | a :: t => b <- f a ;; bs <- mapM f t ;; Some (b :: bs)
  end.

(** ** CSV to Markdown ([csvToMarkdownTable], [src/App.tsx]) *)

Module Csv.

(** The tokenizer pattern of [parseCsvRow],
    [/(?: Q ( (?: QQ | [^Q] )* ) Q | ( [^,]* ) ) ( , | $ )/g],
    written here with Q for the double quote and with blanks between its parts. *)
Definition quoted_char : regex :=            (* QQ | [^Q] *)
  Alt (Seq (Char dq) (Char dq)) (Class true [CChar dq]).
Definition plain_char : regex :=             (* [^,] *)
  Class true [CChar comma].
Definition quoted_field : regex :=           (* Q ( quoted_char* ) Q *)
  Seq (Char dq) (Seq (Group 1 (Star quoted_char)) (Char dq)).
Definition plain_field : regex :=            (* ( plain_char* ) *)
  Group 2 (Star plain_char).
Definition field_end : regex :=              (* ( , | $ ) *)
  Group 3 (Alt (Char comma) Eol).
Definition row_regex : regex :=
  Seq (Alt quoted_field plain_field) field_end.

(** [/QQ/g], two double quotes *)
Definition doubled_quote : regex := Seq (Char dq) (Char dq).

(** [/\|/g] *)
Definition pipe_regex : regex := Char pipe.

(** [/\r?\n/] *)
Definition line_break : regex := Seq (Opt (Char cr)) (Char nl).

(** The body of the [while] loop of [parseCsvRow]: [rest] is the input from
    [regex.lastIndex] on. *)
Fixpoint parseCsvRow_loop (fuel : nat) (rest : str) (results : list str)
  : option (list str) :=
  match fuel with
  | O => None
  | S fuel' =>
      match exec_from false row_regex rest with
      | None => Some results
      | Some (_, st) =>
          value <- match capture 1 (m_caps st) with
                   | Some m1 => Some (replace_all false doubled_quote (fun _ => [dq]) m1)
                   | None => capture 2 (m_caps st)   (* [undefined.trim()] throws *)
                   end ;;
          let results' := results ++ [trim value] in
          match capture 3 (m_caps st) with
          | Some [] => Some results'
          | _ => parseCsvRow_loop fuel' (m_rest st) results'
          end
      end
  end.

Definition parseCsvRow (row : str) : option (list str) :=
  parseCsvRow_loop (S (length row)) row [].

(** [cell.replace(/\|/g, '\\|')] *)
Definition escape_pipes (cell : str) : str :=
  replace_all false pipe_regex (fun _ => [bs; pipe]) cell.

(** [Array.from({ length: header.length }, (_, i) => cells[i] || '')] *)
Definition adjust_cells (width : nat) (cells : list str) : list str :=
  map (fun i => nth i cells []) (seq 0 width).

Definition table_row (header : list str) (line : str) : option str :=
  cells <- parseCsvRow line ;;
  Some (join (lit " | ") (map escape_pipes (adjust_cells (length header) cells))).

Definition nonblank (line : str) : bool := negb (is_nil (trim line)).

Definition csvToMarkdownTable (csv : str) : option str :=
  let content := trim csv in
  if is_nil content then Some [] else
  let lines := split false line_break content in
  match lines with
  | [] => Some []
  | first :: _ =>
      header <- parseCsvRow first ;;
      let separator := join (lit " | ") (map (fun _ => lit "---") header) in
      rows <- mapM (table_row header) (filter nonblank (tl lines)) ;;
      let rows := join [nl] (map (fun row => lit "| " ++ row ++ lit " |") rows) in
      Some (lit "| " ++ join (lit " | ") header ++ lit " |" ++ [nl]
            ++ lit "| " ++ separator ++ lit " |" ++ [nl] ++ rows)
  end.

End Csv.

(** ** The tokenizer and the line splitter written as direct recursions

    These functions say in plain recursion what the patterns of [Csv] compute;
    [CsvFacts] proves that they agree with the matcher. *)

Module CsvSpec.

(** One round of the inside of a quoted field: a pair of quotes, or one code
    unit that is not a quote. *)
Definition quoted_next (s : str) : option str :=
  match s with
  | [] => None
  | a :: s1 =>
      if (a =? dq)%N then
        match s1 with
        | b :: t => if (b =? dq)%N then Some t else None
        | [] => None
        end
      else Some s1
  end.

(** The longest run of such rounds: the text passed and the input left. *)
Fixpoint quoted_body (s : str) : str * str :=
  match s with
  | [] => ([], [])
  | a :: s1 =>
      if (a =? dq)%N then
        match s1 with
        | b :: t =>
            if (b =? dq)%N
            then let (body, r) := quoted_body t in (a :: b :: body, r)
            else ([], s)
        | [] => ([], s)
        end
      else let (body, r) := quoted_body s1 in (a :: body, r)
  end.

(** The text before the first comma and the input from that comma on. *)
Fixpoint field_span (s : str) : str * str :=
  match s with
  | [] => ([], [])
  | c :: t =>
      if (c =? comma)%N then ([], s)
      else let (f, r) := field_span t in (c :: f, r)
  end.

Definition plain_step (s : str) : mstate :=
  let (f, r) := field_span s in
  match r with
  | [] => MState [] [(3, []); (2, f)]
  | _ :: r' => MState r' [(3, [comma]); (2, f)]
  end.

(** The match the tokenizer pattern reports at the head of [s]. *)
Definition row_step (s : str) : mstate :=
  match s with
  | [] => plain_step s
  | q :: s1 =>
      if (q =? dq)%N then
        let (body, r) := quoted_body s1 in
        match r with
        | [] => plain_step s
        | [_] => MState [] [(3, []); (1, body)]
        | _ :: c :: r' =>
            if (c =? comma)%N then MState r' [(3, [comma]); (1, body)]
            else plain_step s
        end
      else plain_step s
  end.

(** Every pair of quotes becomes one quote. *)
Fixpoint unescape (s : str) : str :=
  match s with
  | [] => []
  | a :: s1 =>
      match s1 with
      | b :: t =>
          if ((a =? dq) && (b =? dq))%N then dq :: unescape t
          else a :: unescape s1
      | [] => [a]
      end
  end.

(** RFC 4180 escaping of a field value: every quote is doubled. *)
Definition escape_quotes (v : str) : str :=
  flat_map (fun c => if (c =? dq)%N then [dq; dq] else [c]) v.

(** The value the loop body pushes for a match, before trimming. *)
Definition step_value (st : mstate) : str :=
  match capture 1 (m_caps st) with
  | Some m1 => unescape m1
  | None => match capture 2 (m_caps st) with Some m2 => m2 | None => [] end
  end.

Definition step_last (st : mstate) : bool :=
  match capture 3 (m_caps st) with Some [] => true | _ => false end.

Fixpoint fields_fuel (fuel : nat) (s : str) : list str :=
  match fuel with
  | O => []
  | S fuel' =>
      let st := row_step s in
      if step_last st then [trim (step_value st)]
      else trim (step_value st) :: fields_fuel fuel' (m_rest st)
  end.

(** The fields of a row. *)
Definition fields (row : str) : list str := fields_fuel (S (length row)) row.

(** Lines: the text is cut at every \n, and a \r right before it goes with it. *)
Fixpoint lines_from (piece : str) (s : str) : list str :=
  match s with
  | [] => [piece]
  | c :: t =>
      if (c =? nl)%N then piece :: lines_from [] t
      else
        match t with
        | c' :: t' =>
            if ((c =? cr) && (c' =? nl))%N then piece :: lines_from [] t'
            else lines_from (piece ++ [c]) t
        | [] => lines_from (piece ++ [c]) t
        end
  end.

Definition lines (s : str) : list str := lines_from [] s.

(** A backslash before every pipe. *)
Definition escape_cell (cell : str) : str :=
  flat_map (fun c => if (c =? pipe)%N then [bs; pipe] else [c]) cell.

(** A row of cells cut or padded to [width] cells. *)
Definition fit (width : nat) (cells : list str) : list str :=
  firstn width cells ++ repeat [] (width - length cells).

(** A table row: the cells joined by [ | ] between [| ] and [ |]. *)
Definition markdown_row (cells : list str) : str :=
  lit "| " ++ join (lit " | ") cells ++ lit " |".

Definition separator_row (width : nat) : str :=
  markdown_row (repeat (lit "---") width).

Definition data_cells (width : nat) (line : str) : list str :=
  map escape_cell (fit width (fields line)).

(** The table of a CSV text: header row, separator row, and one row for every
    later line that is not blank. *)
Definition markdown_table (csv : str) : str :=
  match trim csv with
  | [] => []
  | _ =>
      match lines (trim csv) with
      | [] => []
      | first :: rest =>
          let width := length (fields first) in
          markdown_row (fields first) ++ [nl] ++ separator_row width ++ [nl]
          ++ join [nl] (map (fun line => markdown_row (data_cells width line))
                            (filter Csv.nonblank rest))
      end
  end.

End CsvSpec.

(** ** File names and headings ([sanitizeFilenameForHeader], [combinedMarkdown]) *)

Module Heading.

(** A run of literal pattern characters. *)
Definition chars (w : str) : regex := fold_right (fun c r => Seq (Char c) r) Empty w.

(** [/\.(md|markdown|csv)$/i] *)
Definition extension_regex : regex :=
  Seq (Char dot)
      (Seq (Group 1 (Alt (chars (lit "md"))
                         (Alt (chars (lit "markdown")) (chars (lit "csv")))))
           Eol).

(** [/\.csv$/i] *)
Definition csv_regex : regex := Seq (Char dot) (Seq (chars (lit "csv")) Eol).

(** [/\.zip$/i] *)
Definition zip_regex : regex := Seq (Char dot) (Seq (chars (lit "zip")) Eol).

(** The class of [/([\\`*_{}[\]()#+-.!])/g], member by member: backslash,
    backtick, star, underscore, the two braces, the two brackets, the two
    parentheses, hash, the range from plus to dot, and the exclamation mark. *)
Definition special_class : list class_item :=
  [CChar bs; CChar 96%N; CChar 42%N; CChar 95%N; CChar 123%N; CChar 125%N;
   CChar 91%N; CChar 93%N; CChar 40%N; CChar 41%N; CChar 35%N;
   CRange 43%N 46%N; CChar 33%N].

Definition special_regex : regex := Group 1 (Class false special_class).

(** [name.replace(/\.(md|markdown|csv)$/i, '')] *)
Definition strip_extension (name : str) : str :=
  replace_first true extension_regex (fun _ => []) name.

(** The replacement text is a backslash followed by [$1]. *)
Definition sanitizeFilenameForHeader (name : str) : str :=
  let extensionless := strip_extension name in
  replace_all false special_regex
    (fun st => bs :: match capture 1 (m_caps st) with Some g => g | None => [] end)
    extensionless.

End Heading.

(** Direct readings of the file-name patterns. *)
Module HeadingSpec.

Definition lower (c : char) : char :=
  if ((65 <=? c) && (c <=? 90))%N then (c + 32)%N else c.

(** [e] is one of the extensions [exts], whatever the case of its letters. *)
Definition is_ext (exts : list str) (e : str) : bool :=
  existsb (eqb_str (map lower e)) exts.

Definition text_exts : list str := [lit ".md"; lit ".markdown"; lit ".csv"].

(** [name] ends in one of [exts]. *)
Definition has_extension (exts : list str) (name : str) : Prop :=
  exists base e, name = base ++ e /\ is_ext exts e = true.

(** Some suffix of [s] satisfies [here]. *)
Fixpoint any_suffix (here : str -> bool) (s : str) : bool :=
  here s
  || match s with
     | [] => false
     | _ :: t => any_suffix here t
     end.

Definition has_extensionb (exts : list str) (name : str) : bool :=
  any_suffix (is_ext exts) name.

(** [s] without its longest suffix that satisfies [here]. *)
Fixpoint cut_suffix (here : str -> bool) (s : str) : str :=
  if here s then []
  else match s with
       | [] => []
       | c :: t => c :: cut_suffix here t
       end.

(** The name without its [.md], [.markdown] or [.csv]. *)
Definition stem (name : str) : str := cut_suffix (is_ext text_exts) name.

(** The fifteen characters the specification lists for escaping. *)
Definition markdown_specials : str :=
  [bs; 96; 42; 95; 123; 125; 91; 93; 40; 41; 35; 43; 45; 46; 33]%N.

Definition is_special (c : char) : bool := existsb (N.eqb c) markdown_specials.

(** A pattern character that is a lower-case letter or no letter at all. *)
Definition plain (p : char) : Prop := (p < 65 \/ (97 <= p /\ p <= 122))%N.

(** What a pattern of the shape [\.word$] or [\.(word|...)$] does at one place:
    it matches when [here] holds, and then up to the end of the input. *)
Definition anchored (r : regex) (here : str -> bool) : Prop :=
  forall s,
    if here s
    then exists st l, rmatch true r (MState s []) = st :: l /\ m_rest st = []
    else rmatch true r (MState s []) = [].

End HeadingSpec.

(** ** The application state and the upload handler ([processFiles]) *)

Module App.
Import Heading.

Record UploadedFile := { id : str; name : str; content : str }.

Definition MAX_FILES : nat := 100.
Definition MAX_FILE_SIZE_MB : N := 5.
Definition MAX_FILE_SIZE_BYTES : N := MAX_FILE_SIZE_MB * 1024 * 1024.
Definition MAX_ZIP_FILE_SIZE_MB : N := 25.
Definition MAX_ZIP_FILE_SIZE_BYTES : N := MAX_ZIP_FILE_SIZE_MB * 1024 * 1024.

(** A number inside a template literal. *)
Definition decimal (n : N) : str := lit (NilEmpty.string_of_uint (N.to_uint n)).

(** [combinedMarkdown]: the memoized value for the current [files] and
    [isJoining]. *)
Definition combinedMarkdown (isJoining : bool) (files : list UploadedFile) : str :=
  if negb isJoining || (length files =? 0) then []
  else join ([nl; nl] ++ lit "---" ++ [nl; nl])
            (map (fun file => lit "# " ++ sanitizeFilenameForHeader (name file)
                              ++ [nl; nl] ++ content file)
                 files).

(** What the browser hands over.  A member of an archive, as JSZip lists it:
    [entry_text] is the result of [zipEntry.async('string')], [None] when that
    promise rejects.  [entry_stamp] is the text of
    [Date.now()] and [Math.random()] joined by a dash at the moment the record
    is built: clock and generator belong to the environment. *)
Record ZipEntry := {
  entry_name : str;
  entry_dir : bool;
  entry_text : option str;
  entry_stamp : str
}.

(** A dropped or picked file.  [file_text] is what [FileReader.readAsText]
    delivers, [None] when it fires [onerror]; [file_zip] is what
    [JSZip.loadAsync] delivers, the values of [zip.files] in order, [None]
    when it rejects. *)
Record File := {
  file_name : str;
  file_size : N;
  file_text : option str;
  file_zip : option (list ZipEntry);
  file_stamp : str
}.

Definition processSingleFile (stamp fileName content : str) : option UploadedFile :=
  processedContent <-
    (if test true csv_regex fileName then Csv.csvToMarkdownTable content
     else Some content) ;;
  Some {| id := fileName ++ lit "-" ++ stamp;
          name := fileName;
          content := processedContent |}.

Inductive settled :=
| Resolved (records : list UploadedFile)
| Rejected (message : str).

(** The promise [handleFile] returns.  [immediate] tells that it settles before
    the executor reaches its first [await] or callback. *)
Record promise := { immediate : bool; outcome : settled }.

Definition zip_too_large (fileName : str) : str :=
  lit "ZIP " ++ [dq] ++ fileName ++ [dq] ++ lit " is larger than "
  ++ decimal MAX_ZIP_FILE_SIZE_MB ++ lit "MB.".

Definition zip_failed (fileName : str) : str :=
  lit "Failed to process ZIP file " ++ [dq] ++ fileName ++ [dq]
  ++ lit ". It may be corrupt.".

Definition file_too_large (fileName : str) : str :=
  [dq] ++ fileName ++ [dq] ++ lit " is larger than "
  ++ decimal MAX_FILE_SIZE_MB ++ lit "MB.".

Definition process_failed (fileName : str) : str :=
  lit "Failed to process " ++ [dq] ++ fileName ++ [dq] ++ lit ".".

Definition read_failed (fileName : str) : str :=
  lit "Failed to read " ++ [dq] ++ fileName ++ [dq] ++ lit ".".

Definition zip_member_kept (zipEntry : ZipEntry) : bool :=
  negb (entry_dir zipEntry) && test true extension_regex (entry_name zipEntry).

Definition zip_member_record (zipEntry : ZipEntry) : option UploadedFile :=
  content <- entry_text zipEntry ;;
  processSingleFile (entry_stamp zipEntry) (entry_name zipEntry) content.

(** [handleFile]; [jszip] tells whether [window.JSZip] is there. *)
Definition handleFile (jszip : bool) (file : File) : promise :=
  if test true zip_regex (file_name file) then
    if (MAX_ZIP_FILE_SIZE_BYTES <? file_size file)%N then
      {| immediate := true; outcome := Rejected (zip_too_large (file_name file)) |}
    else if negb jszip then
      {| immediate := true;
         outcome := Rejected (lit "ZIP library not loaded. Please refresh.") |}
    else
      match file_zip file with
      | None =>
          {| immediate := false; outcome := Rejected (zip_failed (file_name file)) |}
      | Some entries =>
          match mapM zip_member_record (filter zip_member_kept entries) with
          | Some filesFromZip =>
              {| immediate := false; outcome := Resolved filesFromZip |}
          | None =>
              {| immediate := false;
                 outcome := Rejected (zip_failed (file_name file)) |}
          end
      end
  else if test true extension_regex (file_name file) then
    if (MAX_FILE_SIZE_BYTES <? file_size file)%N then
      {| immediate := true; outcome := Rejected (file_too_large (file_name file)) |}
    else
      match file_text file with
      | None =>
          {| immediate := false; outcome := Rejected (read_failed (file_name file)) |}
      | Some content =>
          match processSingleFile (file_stamp file) (file_name file) content with
          | Some record => {| immediate := false; outcome := Resolved [record] |}
          | None =>
              {| immediate := false;
                 outcome := Rejected (process_failed (file_name file)) |}
          end
      end
  else {| immediate := true; outcome := Resolved [] |}.

Definition rejections (now : bool) (promises : list promise) : list str :=
  flat_map (fun p => match outcome p with
                     | Rejected message =>
                         if Bool.eqb (immediate p) now then [message] else []
                     | Resolved _ => []
                     end) promises.

Definition resolutions (promises : list promise) : list (list UploadedFile) :=
  flat_map (fun p => match outcome p with
                     | Resolved records => [records]
                     | Rejected _ => []
                     end) promises.

(** [Promise.all]: the values in the order of the promises, or the reason of
    the promise that rejects first.  Promises already rejected when
    [Promise.all] subscribes are served in list order and before any other;
    which of the remaining ones rejects first is up to the browser: [race]
    stands for that choice. *)
Definition promise_all (race : list str -> str) (promises : list promise)
  : list (list UploadedFile) + str :=
  match rejections true promises with
  | message :: _ => inr message
  | [] =>
      match rejections false promises with
      | [] => inl (resolutions promises)
      | later => inr (race later)
      end
  end.

(** [list.slice(0, to)] *)
Definition slice_to {A : Type} (to : Z) (l : list A) : list A :=
  if (to <? 0)%Z then firstn (Z.to_nat (Z.of_nat (length l) + to)) l
  else firstn (Z.to_nat to) l.

Record AppState := {
  files : list UploadedFile;
  error : option str;
  isLoading : bool;
  statusMessage : str
}.

Definition setFiles (f : list UploadedFile -> list UploadedFile) (st : AppState) :=
  {| files := f (files st); error := error st;
     isLoading := isLoading st; statusMessage := statusMessage st |}.

Definition setError (e : option str) (st : AppState) :=
  {| files := files st; error := e;
     isLoading := isLoading st; statusMessage := statusMessage st |}.

Definition setIsLoading (b : bool) (st : AppState) :=
  {| files := files st; error := error st;
     isLoading := b; statusMessage := statusMessage st |}.

Definition setStatusMessage (m : str) (st : AppState) :=
  {| files := files st; error := error st;
     isLoading := isLoading st; statusMessage := m |}.

Definition limit_reached : str :=
  lit "You have reached the maximum of " ++ decimal (N.of_nat MAX_FILES)
  ++ lit " files.".

Definition limit_exceeded : str :=
  lit "Adding these files would exceed the limit of " ++ decimal (N.of_nat MAX_FILES)
  ++ lit ". Only a portion were added.".

(** [processFiles] up to its [await].  [filesLength] is the [files.length]
    the callback closed over when it was made.  The boolean tells whether the
    call goes on. *)
Definition processFiles_begin (filesLength : nat) (st : AppState) : AppState * bool :=
  let st := setError None st in
  if MAX_FILES <=? filesLength then (setError (Some limit_reached) st, false)
  else (setIsLoading true (setStatusMessage (lit "Processing files...") st), true).

(** [processFiles] from the [await] on: [st] is the state at that later time,
    [filesLength] still the length the callback closed over. *)
Definition processFiles_complete (race : list str -> str) (jszip : bool)
  (filesLength : nat) (droppedFiles : list File) (st : AppState) : AppState :=
  let st :=
    match promise_all race (map (handleFile jszip) droppedFiles) with
    | inl nestedNewFiles =>
        let newFiles := concat nestedNewFiles in
        if MAX_FILES <? filesLength + length newFiles then
          let st := setError (Some limit_exceeded) st in
          let spaceLeft := (Z.of_nat MAX_FILES - Z.of_nat filesLength)%Z in
          setFiles (fun currentFiles => currentFiles ++ slice_to spaceLeft newFiles) st
        else setFiles (fun currentFiles => currentFiles ++ newFiles) st
    | inr message => setError (Some message) st
    end in
  setStatusMessage [] (setIsLoading false st).

(** A call of [processFiles] during which nothing else touches the state. *)
Definition processFiles (race : list str -> str) (jszip : bool)
  (droppedFiles : list File) (st : AppState) : AppState :=
  let filesLength := length (files st) in
  let (st, goes_on) := processFiles_begin filesLength st in
  if goes_on then processFiles_complete race jszip filesLength droppedFiles st
  else st.

Definition removeFile (fileId : str) (st : AppState) : AppState :=
  setFiles (filter (fun file => negb (eqb_str (id file) fileId))) st.

(** The Clear All button: [setFiles([])] *)
Definition clearAll (st : AppState) : AppState := setFiles (fun _ => []) st.

(** *** The page as a transition system

    Between the start of a [processFiles] call and its completion the user may
    act again: the drop zone and the buttons stay enabled.  [in_flight] holds
    the calls that have started and not completed, each with the length it
    closed over and its batch. *)
Inductive event :=
| Drop (droppedFiles : list File)
| Settle (k : nat)                  (* the k-th call in flight completes *)
| RemoveFile (fileId : str)
| ClearAll.

Record page := { app : AppState; in_flight : list (nat * list File) }.

Fixpoint drop_nth {A : Type} (k : nat) (l : list A) : list A :=
  match l, k with
  | [], _ => []
  | _ :: t, O => t
  | a :: t, S k' => a :: drop_nth k' t
  end.

Definition step (race : list str -> str) (jszip : bool) (p : page) (ev : event) : page :=
  match ev with
  | Drop droppedFiles =>
      let filesLength := length (files (app p)) in
      let (st, goes_on) := processFiles_begin filesLength (app p) in
      {| app := st;
         in_flight := if goes_on then in_flight p ++ [(filesLength, droppedFiles)]
                      else in_flight p |}
  | Settle k =>
      match nth_error (in_flight p) k with
      | Some (filesLength, droppedFiles) =>
          {| app := processFiles_complete race jszip filesLength droppedFiles (app p);
             in_flight := drop_nth k (in_flight p) |}
      | None => p
      end
  | RemoveFile fileId => {| app := removeFile fileId (app p); in_flight := in_flight p |}
  | ClearAll => {| app := clearAll (app p); in_flight := in_flight p |}
  end.

Definition run (race : list str -> str) (jszip : bool) (p : page) (evs : list event) : page :=
  fold_left (step race jszip) evs p.

Definition initial : page :=
  {| app := {| files := []; error := None; isLoading := false; statusMessage := [] |};
     in_flight := [] |}.

End App.

(** What the upload handler is expected to build and to refuse. *)
Module UploadSpec.
Import HeadingSpec App.

(** The record of a file: a CSV text becomes its table, any other text stays. *)
Definition record_of (stamp fileName text : str) : UploadedFile :=
  {| id := fileName ++ lit "-" ++ stamp;
     name := fileName;
     content := if has_extensionb [lit ".csv"] fileName
                then CsvSpec.markdown_table text else text |}.

(** A member of an archive is taken when it is no directory and its name ends
    in [.md], [.markdown] or [.csv]. *)
Definition member_kept (zipEntry : ZipEntry) : bool :=
  negb (entry_dir zipEntry) && has_extensionb text_exts (entry_name zipEntry).

Definition member_record (zipEntry : ZipEntry) : UploadedFile :=
  record_of (entry_stamp zipEntry) (entry_name zipEntry)
            (match entry_text zipEntry with Some text => text | None => [] end).

(** The failures of a dropped file: a text file over 5 MB, an archive over
    25 MB, an archive that JSZip cannot read, a text file that cannot be
    read. *)
Inductive failure (file : File) : Prop :=
| file_over_limit :
    has_extensionb [lit ".zip"] (file_name file) = false ->
    has_extensionb text_exts (file_name file) = true ->
    (5 * 1024 * 1024 < file_size file)%N ->
    failure file
| zip_over_limit :
    has_extensionb [lit ".zip"] (file_name file) = true ->
    (25 * 1024 * 1024 < file_size file)%N ->
    failure file
| zip_corrupt :
    has_extensionb [lit ".zip"] (file_name file) = true ->
    (file_size file <= 25 * 1024 * 1024)%N ->
    file_zip file = None ->
    failure file
| read_error :
    has_extensionb [lit ".zip"] (file_name file) = false ->
    has_extensionb text_exts (file_name file) = true ->
    (file_size file <= 5 * 1024 * 1024)%N ->
    file_text file = None ->
    failure file.

(** A trace in which every call of [processFiles] completes before the next
    event. *)
Fixpoint one_at_a_time (evs : list event) : bool :=
  match evs with
  | [] => true
  | Drop _ :: next =>
      match next with
      | Settle 0 :: rest => one_at_a_time rest
      | _ => false
      end
  | Settle _ :: _ => false
  | RemoveFile _ :: rest => one_at_a_time rest
  | ClearAll :: rest => one_at_a_time rest
  end.

End UploadSpec.

(** ** Output ([handleDownload]) *)

Module Json.

#[local] Unset Elimination Schemes.
Inductive json :=
| JString (s : str)
| JArray (items : list json)
| JObject (members : list (str * json)).
#[local] Set Elimination Schemes.

Definition hex_digit (n : N) : char :=
  if (n <? 10)%N then (48 + n)%N else (87 + n)%N.

(** A backslash, [u] and four lower-case hexadecimal digits. *)
Definition unicode_escape (c : char) : str :=
  [bs; 117%N; hex_digit ((c / 4096) mod 16); hex_digit ((c / 256) mod 16);
   hex_digit ((c / 16) mod 16); hex_digit (c mod 16)].

Definition is_leading (c : char) : bool := ((55296 <=? c) && (c <=? 56319))%N.
Definition is_trailing (c : char) : bool := ((56320 <=? c) && (c <=? 57343))%N.

(** QuoteJSONString (ECMA-262, 25.5.2.3), between the quotes: the short
    escapes, the control characters and the lone surrogates as unicode
    escapes, everything else as it is. *)
Fixpoint quote_body (s : str) : str :=
  match s with
  | [] => []
  | c :: t =>
      if (c =? 8)%N then bs :: 98%N :: quote_body t
      else if (c =? 9)%N then bs :: 116%N :: quote_body t
      else if (c =? 10)%N then bs :: 110%N :: quote_body t
      else if (c =? 12)%N then bs :: 102%N :: quote_body t
      else if (c =? 13)%N then bs :: 114%N :: quote_body t
      else if (c =? dq)%N then bs :: dq :: quote_body t
      else if (c =? bs)%N then bs :: bs :: quote_body t
      else if (c <? 32)%N then unicode_escape c ++ quote_body t
      else if is_leading c then
        match t with
        | c2 :: t2 =>
            if is_trailing c2 then c :: c2 :: quote_body t2
            else unicode_escape c ++ quote_body t
        | [] => unicode_escape c
        end
      else if is_trailing c then unicode_escape c ++ quote_body t
      else c :: quote_body t
  end.

Definition QuoteJSONString (s : str) : str := [dq] ++ quote_body s ++ [dq].

(** SerializeJSONProperty for strings, arrays and objects whose members are
    all present; [gap] is the indentation unit, [indent] the current
    indentation. *)
Fixpoint serialize (gap indent : str) (v : json) : str :=
  match v with
  | JString s => QuoteJSONString s
  | JArray items =>
      let stepback := indent in
      let indent := indent ++ gap in
      let partial := map (serialize gap indent) items in
      if is_nil partial then lit "[]"
      else if is_nil gap then lit "[" ++ join (lit ",") partial ++ lit "]"
      else lit "[" ++ [nl] ++ indent ++ join (lit "," ++ [nl] ++ indent) partial
           ++ [nl] ++ stepback ++ lit "]"
  | JObject members =>
      let stepback := indent in
      let indent := indent ++ gap in
      let partial :=
        map (fun member =>
               QuoteJSONString (fst member) ++ lit ":"
               ++ (if is_nil gap then [] else lit " ")
               ++ serialize gap indent (snd member)) members in
      if is_nil partial then lit "{}"
      else if is_nil gap then lit "{" ++ join (lit ",") partial ++ lit "}"
      else lit "{" ++ [nl] ++ indent ++ join (lit "," ++ [nl] ++ indent) partial
           ++ [nl] ++ stepback ++ lit "}"
  end.

(** [JSON.stringify(value, null, space)] for a number of spaces up to ten *)
Definition stringify (v : json) (space : nat) : str :=
  serialize (repeat 32%N (Nat.min space 10)) [] v.

End Json.

Module Download.
Import Heading App Json.

Inductive format := pdf | json_output.

(** The globals the CDN scripts define, when they have loaded. *)
Record window := {
  has_jspdf : bool;
  has_marked : bool;
  has_DOMPurify : bool;
  has_JSZip : bool
}.

(** What is written into an archive: a text, or the blob of the PDF that
    [createPdf] makes of a Markdown text and a title.  The rendering itself is
    the work of marked, DOMPurify and jsPDF. *)
Inductive zip_data :=
| Text (data : str)
| PdfBlob (markdownContent title : str).

(** What the user receives.  For an archive, [writes] lists the calls of
    [zip.file(name, data)] in order. *)
Inductive artifact :=
| SaveBlob (filename mime data : str)
| SaveZip (filename : str) (writes : list (str * zip_data))
| SavePdf (filename markdownContent title : str).

(** [{ name, content }] *)
Definition name_content (file : UploadedFile) : json :=
  JObject [(lit "name", JString (name file)); (lit "content", JString (content file))].

(** [handleDownload]: the error it sets, if any, and the artifact it hands
    to the browser, if any. *)
Definition handleDownload (w : window) (outputFormat : format) (isJoining : bool)
  (files : list UploadedFile) : option str * option artifact :=
  if length files =? 0 then (Some (lit "Please upload some files first."), None)
  else if negb (has_jspdf w) || negb (has_marked w) || negb (has_DOMPurify w)
          || negb (has_JSZip w)
  then (Some (lit "Core libraries failed to load. Please refresh the page and try again."),
        None)
  else
    match outputFormat with
    | pdf =>
        if isJoining then
          (None, Some (SavePdf (lit "rag-combined.pdf")
                               (combinedMarkdown isJoining files)
                               (lit "RAG-Optimized Document")))
        else
          let zip :=
            fold_left (fun zip file =>
                         let title := strip_extension (name file) in
                         zip ++ [(title ++ lit ".pdf", PdfBlob (content file) title)])
                      files [] in
          (None, Some (SaveZip (lit "rag-pdfs.zip") zip))
    | json_output =>
        if isJoining then
          let jsonData := stringify (JArray (map name_content files)) 2 in
          (None, Some (SaveBlob (lit "rag-combined.json") (lit "application/json") jsonData))
        else
          let zip :=
            fold_left (fun zip file =>
                         let jsonData := stringify (name_content file) 2 in
                         let title := strip_extension (name file) in
                         zip ++ [(title ++ lit ".json", Text jsonData)])
                      files [] in
          (None, Some (SaveZip (lit "rag-json.zip") zip))
    end.

End Download.

Module DownloadSpec.
Import App Json Download.

(** The four globals are there. *)
Definition libraries_loaded (w : window) : bool :=
  has_jspdf w && has_marked w && has_DOMPurify w && has_JSZip w.

(** The text of one record at a given indentation, written out. *)
Definition object_text (indent : str) (file : UploadedFile) : str :=
  lit "{" ++ [nl] ++ indent ++ lit "  "
  ++ QuoteJSONString (lit "name") ++ lit ": " ++ QuoteJSONString (name file)
  ++ lit "," ++ [nl] ++ indent ++ lit "  "
  ++ QuoteJSONString (lit "content") ++ lit ": " ++ QuoteJSONString (content file)
  ++ [nl] ++ indent ++ lit "}".

End DownloadSpec.

(** Inputs on which the properties are tried. *)
Module Samples.
Import App Download.

Definition big_notes : File :=
  {| file_name := lit "Notes.MD"; file_size := 6000000;
     file_text := Some (lit "# notes"); file_zip := None; file_stamp := lit "1-0.5" |}.

Definition big_archive : File :=
  {| file_name := lit "docs.zip"; file_size := 30000000;
     file_text := None; file_zip := Some []; file_stamp := lit "2-0.25" |}.

Definition broken_archive : File :=
  {| file_name := lit "old.zip"; file_size := 1000;
     file_text := None; file_zip := None; file_stamp := lit "3-0.75" |}.

Definition picture : File :=
  {| file_name := lit "photo.png"; file_size := 1000;
     file_text := Some (lit "..."); file_zip := None; file_stamp := lit "4-0.125" |}.

Definition note : File :=
  {| file_name := lit "n.md"; file_size := 1;
     file_text := Some (lit "x"); file_zip := None; file_stamp := lit "5-0.5" |}.

Definition members : list ZipEntry :=
  [ {| entry_name := lit "docs/"; entry_dir := true;
       entry_text := Some []; entry_stamp := lit "6-0.1" |};
    {| entry_name := lit "docs/a.md"; entry_dir := false;
       entry_text := Some (lit "# a"); entry_stamp := lit "6-0.2" |};
    {| entry_name := lit "docs/logo.png"; entry_dir := false;
       entry_text := None; entry_stamp := lit "6-0.3" |};
    {| entry_name := lit "docs/t.CSV"; entry_dir := false;
       entry_text := Some (lit "h" ++ [nl] ++ lit "1"); entry_stamp := lit "6-0.4" |} ].

Definition archive : File :=
  {| file_name := lit "docs.zip"; file_size := 2000;
     file_text := None; file_zip := Some members; file_stamp := lit "7-0.5" |}.

Definition stock_csv : str :=
  lit "name, qty" ++ [cr; nl] ++ lit "nut,3" ++ [nl; nl] ++ lit "bolt,4".

Definition empty_state : AppState :=
  {| files := []; error := None; isLoading := false; statusMessage := [] |}.

Definition first_of (reasons : list str) : str := hd [] reasons.

Definition all_loaded : window :=
  {| has_jspdf := true; has_marked := true; has_DOMPurify := true; has_JSZip := true |}.

Definition two_records : list UploadedFile :=
  [ {| id := lit "a.md-1-0.5"; name := lit "a.md"; content := lit "# a" |};
    {| id := lit "t.csv-2-0.5"; name := lit "t.csv"; content := lit "| h |" |} ].

End Samples.

(** ** Further parts of the page and further readings *)

(** Writing a CSV row down, to read it back with the tokenizer. *)
Module CsvWriter.

Inductive csv_field :=
| Quoted (value : str)          (* written between quotes, inner quotes doubled *)
| Plain (text : str).           (* written as it is *)

Definition field_text (f : csv_field) : str :=
  match f with
  | Quoted value => [dq] ++ CsvSpec.escape_quotes value ++ [dq]
  | Plain text => text
  end.

Definition field_value (f : csv_field) : str :=
  match f with
  | Quoted value => value
  | Plain text => text
  end.

(** A plain field holds no comma and does not start with a quote. *)
Definition writable (f : csv_field) : Prop :=
  match f with
  | Quoted _ => True
  | Plain text => ~ In comma text /\ hd_error text <> Some dq
  end.

Definition write_row (fs : list csv_field) : str :=
  join [comma] (map field_text fs).

Definition all_ws (s : str) : bool := forallb is_ws s.

(** A text that can stand as one line among others: no newline in it, no
    carriage return at its end. *)
Definition one_line (s : str) : Prop :=
  ~ In nl s /\ forall s', s <> s' ++ [cr].

End CsvWriter.

(** Reading a heading back: a backslash stands for the character after it. *)
Module HeadingReader.

Fixpoint unbackslash (s : str) : str :=
  match s with
  | [] => []
  | b :: t =>
      if (b =? bs)%N then
        match t with
        | c :: t' => c :: unbackslash t'
        | [] => [b]
        end
      else b :: unbackslash t
  end.

End HeadingReader.

(** The preview pane ([updatePreview] and the condition under which the pane
    shows [sanitizedHtmlPreview]). *)
Module Preview.
Import App Download.

Section WithLibraries.

(** [window.marked.parse] with the options of the call, and
    [window.DOMPurify.sanitize]. *)
Variable parse : str -> str.
Variable sanitize : str -> str.

(** The new value of [sanitizedHtmlPreview]; [previous] is the value before.
    Without DOMPurify the call throws after the parse and sets nothing. *)
Definition updatePreview (w : window) (combinedMarkdown previous : str) : str :=
  if has_marked w && negb (is_nil combinedMarkdown) then
    if has_DOMPurify w then sanitize (parse combinedMarkdown) else previous
  else [].

End WithLibraries.

(** [isJoining && files.length > 0] *)
Definition preview_shown (isJoining : bool) (files : list UploadedFile) : bool :=
  isJoining && (0 <? length files).

End Preview.

(** ** The first version of the page (the first [App] of [src/App.tsx])

    Markdown files only, records without an id, and a limit that refuses a
    whole batch. *)
Module FirstVersion.

Record UploadedFile := { name : str; content : str }.

Definition MAX_FILES : nat := 100.

(** [s.endsWith(suffix)] *)
Definition endsWith (s suffix : str) : bool :=
  (length suffix <=? length s)
  && eqb_str (skipn (length s - length suffix) s) suffix.

(** A dropped file: [file_text] is what [FileReader.readAsText] delivers,
    [None] when it fires [onerror]. *)
Record File := { file_name : str; file_text : option str }.

Definition readFile (file : File) : option UploadedFile :=
  content <- file_text file ;;
  Some {| name := file_name file; content := content |}.

Definition limit_alert : str :=
  lit "You can only upload up to " ++ App.decimal (N.of_nat MAX_FILES) ++ lit " files.".

(** [processFiles]: the new list and the text of the alert, if any.
    [filesLength] is the [files.length] the callback closed over,
    [currentFiles] the list at the time of the update.  When a read fails
    [Promise.all] rejects and nothing handles it: the list stays. *)
Definition processFiles (filesLength : nat) (droppedFiles : list File)
  (currentFiles : list UploadedFile) : list UploadedFile * option str :=
  let newFiles :=
    filter (fun file => endsWith (file_name file) (lit ".md")
                        || endsWith (file_name file) (lit ".markdown"))
           droppedFiles in
  if MAX_FILES <? filesLength + length newFiles then (currentFiles, Some limit_alert)
  else
    match mapM readFile newFiles with
    | Some readFiles => (currentFiles ++ readFiles, None)
    | None => (currentFiles, None)
    end.

(** [removeFile], by name in this version *)
Definition removeFile (fileName : str) (files : list UploadedFile) : list UploadedFile :=
  filter (fun file => negb (eqb_str (name file) fileName)) files.


End FirstVersion.

(** More inputs on which the properties are tried. *)
Module MoreSamples.
Import App Download CsvWriter.

Definition written_fields : list csv_field :=
  [Plain (lit " id "); Quoted (lit "Doe, " ++ [dq] ++ lit "Jo" ++ [dq]); Plain []].

Definition half_archive : File :=
  {| file_name := lit "half.zip"; file_size := 2000; file_text := None;
     file_zip := Some [ {| entry_name := lit "a.md"; entry_dir := false;
                           entry_text := Some (lit "# a"); entry_stamp := lit "8-0.1" |};
                        {| entry_name := lit "b.csv"; entry_dir := false;
                           entry_text := None; entry_stamp := lit "8-0.2" |} ];
     file_stamp := lit "8-0.5" |}.

Definition small_archive : File :=
  {| file_name := lit "s.ZIP"; file_size := 10; file_text := None;
     file_zip := Some []; file_stamp := lit "9-0.5" |}.

Definition full_state : AppState :=
  {| files := repeat {| id := lit "n.md-1"; name := lit "n.md"; content := lit "x" |} 100;
     error := None; isLoading := false; statusMessage := [] |}.


Definition two_state : AppState :=
  {| files := [ {| id := lit "a.md-1-0.5"; name := lit "a.md"; content := lit "# a" |};
                {| id := lit "a.md-2-0.25"; name := lit "a.md"; content := lit "# b" |} ];
     error := None; isLoading := false; statusMessage := [] |}.

End MoreSamples.

(** ** Facts about the matcher *)

Module JsFacts.
Import Js.

Lemma flat_map_nil {A B : Type} (f : A -> list B) (l : list A) :
  (forall a, f a = []) -> flat_map f l = [].
Proof.
  intros Hf. induction l as [|a l IH]; simpl; [reflexivity|].
  now rewrite Hf, IH.
Qed.

Lemma flat_map_single {A B : Type} (f : A -> list B) (a : A) :
  flat_map f [a] = f a.
Proof. simpl. apply app_nil_r. Qed.

Lemma flat_map_pointwise {A B : Type} (f g : A -> list B) (l : list A) :
  (forall a, f a = g a) -> flat_map f l = flat_map g l.
Proof.
  intros Hfg. induction l as [|a l IH]; simpl; [reflexivity|].
  now rewrite Hfg, IH.
Qed.

(** More fuel than the input is long changes nothing. *)
Lemma star_iter_fuel body : forall f1 f2 st,
  length (m_rest st) <= f1 -> length (m_rest st) <= f2 ->
  star_iter body f1 st = star_iter body f2 st.
Proof.
  induction f1 as [|f1 IH]; intros f2 st H1 H2.
  - destruct f2 as [|f2]; [reflexivity|]. simpl.
    rewrite flat_map_nil; [reflexivity|].
    intros st'. unfold progressed.
    destruct (Nat.ltb_spec (length (m_rest st')) (length (m_rest st))); [lia|reflexivity].
  - destruct f2 as [|f2]; simpl.
    + rewrite flat_map_nil; [reflexivity|].
      intros st'. unfold progressed.
      destruct (Nat.ltb_spec (length (m_rest st')) (length (m_rest st))); [lia|reflexivity].
    + f_equal. apply flat_map_pointwise. intros st'. unfold progressed.
      destruct (Nat.ltb_spec (length (m_rest st')) (length (m_rest st)));
        [apply IH; lia|reflexivity].
Qed.

(** The equation of greedy iteration. *)
Lemma rmatch_Star ic r st :
  rmatch ic (Star r) st =
  flat_map (fun st' => if progressed st st' then rmatch ic (Star r) st' else [])
           (rmatch ic r st) ++ [st].
Proof.
  simpl. rewrite (star_iter_fuel (rmatch ic r) (f1 := length (m_rest st))
                    (f2 := S (length (m_rest st)))) by lia.
  simpl. f_equal. apply flat_map_pointwise. intros st'. unfold progressed.
  destruct (Nat.ltb_spec (length (m_rest st')) (length (m_rest st)));
    [apply star_iter_fuel; lia|reflexivity].
Qed.

(** A match never gives input back: what is left is no longer than what was
    there. *)
Lemma star_iter_shrinks body :
  (forall st st', In st' (body st) -> length (m_rest st') <= length (m_rest st)) ->
  forall fuel st st', In st' (star_iter body fuel st) ->
  length (m_rest st') <= length (m_rest st).
Proof.
  intros Hbody. induction fuel as [|fuel IH]; intros st st' Hin; simpl in Hin.
  - destruct Hin as [<-|[]]. lia.
  - apply in_app_or in Hin. destruct Hin as [Hin|[<-|[]]]; [|lia].
    apply in_flat_map in Hin. destruct Hin as (st1 & H1 & H2).
    destruct (progressed st st1) eqn:Hp; [|destruct H2].
    apply IH in H2. apply Hbody in H1. lia.
Qed.

Lemma rmatch_shrinks ic r : forall st st',
  In st' (rmatch ic r st) -> length (m_rest st') <= length (m_rest st).
Proof.
  induction r as [|c|neg items|r1 IH1 r2 IH2|r1 IH1 r2 IH2|r IH|r IH|i r IH|];
    intros st st' Hin; simpl in Hin.
  - destruct Hin as [<-|[]]. lia.
  - destruct (m_rest st) as [|x t] eqn:E; [destruct Hin|].
    destruct (N.eqb _ _); [|destruct Hin].
    destruct Hin as [<-|[]]. simpl. lia.
  - destruct (m_rest st) as [|x t] eqn:E; [destruct Hin|].
    destruct (class_matches _ _ _ _); [|destruct Hin].
    destruct Hin as [<-|[]]. simpl. lia.
  - apply in_flat_map in Hin. destruct Hin as (st1 & H1 & H2).
    apply IH1 in H1. apply IH2 in H2. lia.
  - apply in_app_or in Hin. destruct Hin as [H|H]; [apply IH1|apply IH2]; exact H.
  - eapply star_iter_shrinks; [exact IH|exact Hin].
  - apply in_app_or in Hin. destruct Hin as [H|[<-|[]]]; [|lia].
    apply filter_In in H. apply IH. apply H.
  - apply in_map_iff in Hin. destruct Hin as (st1 & <- & H1). simpl. now apply IH.
  - destruct (m_rest st) eqn:E; [|destruct Hin]. destruct Hin as [<-|[]].
    rewrite E. simpl. lia.
Qed.

(** What [exec_from] returns: the skipped text is a prefix of the input, the
    match state is the first success at the place where the skipping stopped. *)
Lemma exec_from_Some ic r : forall s skipped st,
  exec_from ic r s = Some (skipped, st) ->
  exists after l, s = skipped ++ after
    /\ rmatch ic r (MState after []) = st :: l
    /\ length (m_rest st) <= length after.
Proof.
  induction s as [|c t IH]; intros skipped st H; simpl in H.
  - destruct (rmatch ic r (MState [] [])) as [|st0 l] eqn:E; [discriminate|].
    injection H as <- <-. exists [], l. repeat split; auto.
    apply (rmatch_shrinks ic r (MState [] [])). rewrite E. now left.
  - destruct (rmatch ic r (MState (c :: t) [])) as [|st0 l] eqn:E.
    + destruct (exec_from ic r t) as [[sk st1]|] eqn:E1; [|discriminate].
      injection H as <- <-. destruct (IH _ _ eq_refl) as (after & l & -> & Hm & Hl).
      exists after, l. repeat split; auto.
    + injection H as <- <-. exists (c :: t), l. repeat split; auto.
      apply (rmatch_shrinks ic r (MState (c :: t) [])). rewrite E. now left.
Qed.

Lemma exec_from_here ic r s st l :
  rmatch ic r (MState s []) = st :: l -> exec_from ic r s = Some ([], st).
Proof. intros H. destruct s; simpl; now rewrite H. Qed.

Lemma exec_from_later ic r c t :
  rmatch ic r (MState (c :: t) []) = [] ->
  exec_from ic r (c :: t) =
  match exec_from ic r t with
  | Some (skipped, st) => Some (c :: skipped, st)
  | None => None
  end.
Proof. intros H. simpl. now rewrite H. Qed.

(** The loop of a global replace does not depend on fuel beyond the length of
    the input. *)
Lemma replace_loop_fuel ic r repl : forall f1 f2 s,
  length s < f1 -> length s < f2 ->
  replace_loop f1 ic r repl s = replace_loop f2 ic r repl s.
Proof.
  induction f1 as [|f1 IH]; intros f2 s H1 H2; [lia|].
  destruct f2 as [|f2]; [lia|]. simpl.
  destruct (exec_from ic r s) as [[skipped st]|] eqn:E; [|reflexivity].
  destruct (exec_from_Some _ _ _ E) as (after & l & -> & Hm & Hl).
  rewrite skipn_app, Nat.sub_diag, skipn_all. simpl.
  rewrite length_app in H1, H2.
  destruct (Nat.ltb_spec (length (m_rest st)) (length after)).
  - do 2 f_equal. apply IH; lia.
  - destruct (m_rest st) as [|c t] eqn:Er; [reflexivity|].
    do 3 f_equal. simpl in Hl. apply IH; lia.
Qed.

(** The equation of a global replace. *)
Lemma replace_all_eq ic r repl s :
  replace_all ic r repl s =
  match exec_from ic r s with
  | None => s
  | Some (skipped, st) =>
      if length (m_rest st) <? length (skipn (length skipped) s)
      then skipped ++ repl st ++ replace_all ic r repl (m_rest st)
      else match m_rest st with
           | [] => skipped ++ repl st
           | c :: t => skipped ++ repl st ++ c :: replace_all ic r repl t
           end
  end.
Proof.
  unfold replace_all at 1. simpl.
  destruct (exec_from ic r s) as [[skipped st]|] eqn:E; [|reflexivity].
  destruct (exec_from_Some _ _ _ E) as (after & l & -> & Hm & Hl).
  rewrite skipn_app, Nat.sub_diag, skipn_all. simpl.
  rewrite length_app.
  destruct (Nat.ltb_spec (length (m_rest st)) (length after)).
  - do 2 f_equal. apply replace_loop_fuel; lia.
  - destruct (m_rest st) as [|c t] eqn:Er; [reflexivity|].
    do 3 f_equal. simpl in Hl. apply replace_loop_fuel; simpl; lia.
Qed.

Lemma replace_all_nil ic r repl :
  rmatch ic r (MState [] []) = [] -> replace_all ic r repl [] = [].
Proof. intros H. rewrite replace_all_eq. simpl. now rewrite H. Qed.

Lemma replace_all_miss ic r repl c t :
  rmatch ic r (MState (c :: t) []) = [] ->
  replace_all ic r repl (c :: t) = c :: replace_all ic r repl t.
Proof.
  intros H. rewrite (replace_all_eq ic r repl (c :: t)), (replace_all_eq ic r repl t).
  rewrite (exec_from_later ic r c t H).
  destruct (exec_from ic r t) as [[skipped st]|]; [|reflexivity].
  simpl. destruct (Nat.ltb _ _); [reflexivity|]. now destruct (m_rest st).
Qed.

Lemma replace_all_hit ic r repl s st l :
  rmatch ic r (MState s []) = st :: l ->
  length (m_rest st) < length s ->
  replace_all ic r repl s = repl st ++ replace_all ic r repl (m_rest st).
Proof.
  intros H Hlt. rewrite (replace_all_eq ic r repl s), (exec_from_here ic r s H).
  simpl. destruct (Nat.ltb_spec (length (m_rest st)) (length s)); [reflexivity|lia].
Qed.

(** *** Trimming *)

Lemma trim_start_last l c :
  is_ws c = false -> trim_start (l ++ [c]) = trim_start l ++ [c].
Proof.
  intros Hc. induction l as [|a l IH]; simpl; [now rewrite Hc|].
  now destruct (is_ws a).
Qed.

Lemma trim_start_fixed s :
  trim_start s = s <-> s = [] \/ exists c t, s = c :: t /\ is_ws c = false.
Proof.
  split.
  - destruct s as [|c t]; [now left|]. simpl.
    destruct (is_ws c) eqn:E; [|right; now exists c, t].
    intros H. exfalso.
    assert (Hlen : forall u, length (trim_start u) <= length u).
    { induction u as [|a u IHu]; simpl; [lia|]. destruct (is_ws a); simpl; lia. }
    specialize (Hlen t). rewrite H in Hlen. simpl in Hlen. lia.
  - intros [->|(c & t & -> & Hc)]; simpl; [reflexivity|now rewrite Hc].
Qed.

Lemma trim_start_idem s : trim_start (trim_start s) = trim_start s.
Proof.
  induction s as [|c t IH]; [reflexivity|]. simpl.
  destruct (is_ws c) eqn:E; [exact IH|]. simpl. now rewrite E.
Qed.

Lemma trim_end_idem s : trim_end (trim_end s) = trim_end s.
Proof. unfold trim_end. now rewrite rev_involutive, trim_start_idem. Qed.

Lemma trim_end_keeps_head s : trim_start s = s -> trim_start (trim_end s) = trim_end s.
Proof.
  intros H. apply trim_start_fixed in H. apply trim_start_fixed.
  destruct H as [->|(c & t & -> & Hc)]; [now left|]. right.
  unfold trim_end. simpl rev. rewrite trim_start_last by exact Hc.
  rewrite rev_app_distr. simpl. eauto.
Qed.

Lemma trim_idem s : trim (trim s) = trim s.
Proof.
  unfold trim. rewrite (trim_end_keeps_head (trim_start_idem s)).
  apply trim_end_idem.
Qed.

Lemma trim_nil : trim [] = [].
Proof. reflexivity. Qed.

End JsFacts.

(** ** The tokenizer pattern computes [row_step] *)

Module CsvFacts.
Import Js JsFacts Csv CsvSpec.

#[local] Arguments rmatch : simpl never.
#[local] Arguments consumed : simpl never.

Lemma rmatch_Char s caps c :
  rmatch false (Char c) (MState s caps) =
  match s with
  | x :: t => if (x =? c)%N then [MState t caps] else []
  | [] => []
  end.
Proof. reflexivity. Qed.

Lemma rmatch_not_Char s caps c :
  rmatch false (Class true [CChar c]) (MState s caps) =
  match s with
  | x :: t => if (x =? c)%N then [] else [MState t caps]
  | [] => []
  end.
Proof.
  destruct s as [|x t]; [reflexivity|].
  change (rmatch false (Class true [CChar c]) (MState (x :: t) caps))
    with (if xorb true ((c =? x)%N || false) then [MState t caps] else []).
  rewrite orb_false_r, (N.eqb_sym c x). now destruct (x =? c)%N.
Qed.

Lemma rmatch_quoted_char s caps :
  rmatch false quoted_char (MState s caps) =
  match quoted_next s with Some t => [MState t caps] | None => [] end.
Proof.
  unfold quoted_char.
  change (rmatch false (Alt ?a ?b) ?st) with (rmatch false a st ++ rmatch false b st).
  change (rmatch false (Seq ?a ?b) ?st) with (flat_map (rmatch false b) (rmatch false a st)).
  rewrite rmatch_not_Char, rmatch_Char.
  destruct s as [|a s1]; [reflexivity|]. simpl quoted_next.
  destruct (a =? dq)%N; [|reflexivity].
  rewrite flat_map_single, rmatch_Char, app_nil_r.
  destruct s1 as [|b t]; [reflexivity|]. now destruct (b =? dq)%N.
Qed.

Lemma quoted_next_shorter s t : quoted_next s = Some t -> length t < length s.
Proof.
  destruct s as [|a s1]; simpl; [discriminate|].
  destruct (a =? dq)%N.
  - destruct s1 as [|b t']; [discriminate|].
    destruct (b =? dq)%N; [|discriminate]. intros [= <-]. simpl. lia.
  - intros [= <-]. lia.
Qed.

Lemma quoted_body_next s :
  match quoted_next s with
  | Some t => snd (quoted_body s) = snd (quoted_body t)
  | None => quoted_body s = ([], s)
  end.
Proof.
  destruct s as [|a s1]; simpl; [reflexivity|].
  destruct (a =? dq)%N.
  - destruct s1 as [|b t]; [reflexivity|].
    destruct (b =? dq)%N; [|reflexivity]. now destruct (quoted_body t).
  - now destruct (quoted_body s1).
Qed.

Lemma str_length_ind (P : str -> Prop) :
  (forall s, (forall t, length t < length s -> P t) -> P s) -> forall s, P s.
Proof.
  intros H s. remember (length s) as n eqn:E. revert s E.
  induction n as [n IH] using lt_wf_ind. intros s ->.
  apply H. intros t Ht. now apply (IH (length t)).
Qed.

Lemma quoted_body_app s : fst (quoted_body s) ++ snd (quoted_body s) = s.
Proof.
  induction s as [s IH] using str_length_ind.
  destruct s as [|a s1]; [reflexivity|]. simpl.
  destruct (a =? dq)%N.
  - destruct s1 as [|b t]; [reflexivity|].
    destruct (b =? dq)%N; [|reflexivity].
    specialize (IH t). destruct (quoted_body t) as [body r]. simpl in *.
    now rewrite IH by lia.
  - specialize (IH s1). destruct (quoted_body s1) as [body r]. simpl in *.
    now rewrite IH by lia.
Qed.

(** The scan stops at the end of the input or at a single quote. *)
Lemma quoted_body_stop s : quoted_next (snd (quoted_body s)) = None.
Proof.
  induction s as [s IH] using str_length_ind.
  pose proof (quoted_body_next s) as H.
  destruct (quoted_next s) as [t|] eqn:E.
  - rewrite H. apply IH. now apply quoted_next_shorter.
  - now rewrite H.
Qed.

(** The greedy iteration over the inside of a quoted field: the longest scan
    comes first, every other candidate still has a round ahead of it. *)
Lemma rmatch_quoted_star caps s :
  exists l,
    rmatch false (Star quoted_char) (MState s caps)
    = MState (snd (quoted_body s)) caps :: l
    /\ Forall (fun st => quoted_next (m_rest st) <> None /\ m_caps st = caps) l.
Proof.
  induction s as [s IH] using str_length_ind.
  rewrite rmatch_Star, rmatch_quoted_char.
  pose proof (quoted_body_next s) as Hn.
  destruct (quoted_next s) as [t|] eqn:E.
  - rewrite flat_map_single. unfold progressed. simpl m_rest.
    pose proof (quoted_next_shorter _ E) as Hlt.
    destruct (Nat.ltb_spec (length t) (length s)); [|lia].
    destruct (IH t Hlt) as (l & -> & Hl).
    exists (l ++ [MState s caps]). rewrite Hn. split; [reflexivity|].
    apply Forall_app. split; [exact Hl|].
    constructor; [|constructor]. simpl. split; [congruence|reflexivity].
  - exists []. rewrite Hn. split; [reflexivity|constructor].
Qed.

Lemma field_span_app s : fst (field_span s) ++ snd (field_span s) = s.
Proof.
  induction s as [|c t IH]; [reflexivity|]. simpl.
  destruct (c =? comma)%N; [reflexivity|].
  destruct (field_span t) as [f r]. simpl in *. now rewrite IH.
Qed.

Lemma field_span_stop s :
  snd (field_span s) = [] \/ exists r, snd (field_span s) = comma :: r.
Proof.
  induction s as [|c t IH]; [now left|]. simpl.
  destruct (N.eqb_spec c comma) as [->|Hc]; [right; now exists t|].
  now destruct (field_span t).
Qed.

Lemma field_span_no_comma s : ~ In comma (fst (field_span s)).
Proof.
  induction s as [|c t IH]; [intros []|]. simpl.
  destruct (N.eqb_spec c comma) as [->|Hc]; [intros []|].
  destruct (field_span t) as [f r]. simpl in *. intros [H|H]; [congruence|auto].
Qed.

Lemma rmatch_plain_star caps s :
  exists l,
    rmatch false (Star plain_char) (MState s caps)
    = MState (snd (field_span s)) caps :: l.
Proof.
  induction s as [|c t IH].
  - exists []. reflexivity.
  - rewrite rmatch_Star. unfold plain_char at 2. rewrite rmatch_not_Char.
    simpl field_span. destruct (c =? comma)%N.
    + exists []. reflexivity.
    + rewrite flat_map_single. unfold progressed. simpl m_rest.
      destruct (Nat.ltb_spec (length t) (length (c :: t))); [|simpl in *; lia].
      destruct IH as (l & ->). exists (l ++ [MState (c :: t) caps]).
      now destruct (field_span t).
Qed.

Lemma consumed_suffix (pre r : str) caps caps' :
  consumed (MState (pre ++ r) caps) (MState r caps') = pre.
Proof.
  unfold consumed. simpl. rewrite length_app.
  replace (length pre + length r - length r) with (length pre) by lia.
  now rewrite firstn_app, Nat.sub_diag, firstn_all, app_nil_r.
Qed.

Lemma rmatch_field_end s caps :
  rmatch false field_end (MState s caps) =
  match s with
  | [] => [MState [] ((3, []) :: caps)]
  | c :: t => if (c =? comma)%N then [MState t ((3, [comma]) :: caps)] else []
  end.
Proof.
  unfold field_end.
  change (rmatch false (Group 3 ?a) ?st)
    with (map (fun st' => MState (m_rest st') ((3, consumed st st') :: m_caps st'))
              (rmatch false a st)).
  change (rmatch false (Alt ?a ?b) ?st) with (rmatch false a st ++ rmatch false b st).
  rewrite rmatch_Char. destruct s as [|c t]; [reflexivity|].
  destruct (N.eqb_spec c comma) as [->|Hc]; [|reflexivity].
  change (rmatch false Eol (MState (comma :: t) caps)) with (@nil mstate).
  rewrite app_nil_r. cbn [map m_rest m_caps].
  change (comma :: t) with ([comma] ++ t). now rewrite consumed_suffix.
Qed.

(** A candidate that still has a round of the quoted body ahead of it cannot
    close the field: it faces either a pair of quotes or no quote at all. *)
Lemma quoted_close_dead r caps :
  quoted_next r <> None ->
  flat_map (rmatch false field_end) (rmatch false (Char dq) (MState r caps)) = [].
Proof.
  intros H. rewrite rmatch_Char. destruct r as [|a s1]; [reflexivity|].
  simpl in H. destruct (N.eqb_spec a dq) as [->|Ha]; [|reflexivity].
  destruct s1 as [|b t]; [congruence|].
  destruct (N.eqb_spec b dq) as [->|Hb]; [|congruence].
  rewrite flat_map_single, rmatch_field_end. reflexivity.
Qed.

Lemma rmatch_plain_field s :
  exists l,
    flat_map (rmatch false field_end) (rmatch false plain_field (MState s []))
    = plain_step s :: l.
Proof.
  unfold plain_field.
  change (rmatch false (Group 2 ?a) ?st)
    with (map (fun st' => MState (m_rest st') ((2, consumed st st') :: m_caps st'))
              (rmatch false a st)).
  destruct (rmatch_plain_star [] s) as (l & ->).
  unfold plain_step. pose proof (field_span_app s) as Happ.
  pose proof (field_span_stop s) as Hstop.
  destruct (field_span s) as [f r]. simpl in *. subst s.
  rewrite consumed_suffix. rewrite rmatch_field_end.
  destruct Hstop as [->|(r' & ->)]; simpl; eauto.
Qed.

Lemma rmatch_quoted_field s :
  flat_map (rmatch false field_end) (rmatch false quoted_field (MState s []))
  = match s with
    | [] => []
    | q :: s1 =>
        if (q =? dq)%N then
          let (body, r) := quoted_body s1 in
          match r with
          | [] => []
          | [_] => [MState [] [(3, []); (1, body)]]
          | _ :: c :: r' =>
              if (c =? comma)%N then [MState r' [(3, [comma]); (1, body)]] else []
          end
        else []
    end.
Proof.
  unfold quoted_field.
  change (rmatch false (Seq ?a ?b) ?st) with (flat_map (rmatch false b) (rmatch false a st)).
  rewrite rmatch_Char. destruct s as [|q s1]; [reflexivity|].
  destruct (q =? dq)%N; [|reflexivity].
  rewrite flat_map_single.
  change (rmatch false (Seq ?a ?b) ?st) with (flat_map (rmatch false b) (rmatch false a st)).
  change (rmatch false (Group 1 ?a) ?st)
    with (map (fun st' => MState (m_rest st') ((1, consumed st st') :: m_caps st'))
              (rmatch false a st)).
  destruct (rmatch_quoted_star [] s1) as (l & -> & Hl).
  rewrite map_cons. cbn [flat_map]. rewrite flat_map_app.
  assert (Hdead : flat_map (rmatch false field_end)
            (flat_map (rmatch false (Char dq))
               (map (fun st' => MState (m_rest st')
                       ((1, consumed (MState s1 []) st') :: m_caps st')) l)) = []).
  { clear -Hl. induction Hl as [|st l [Hst _] _ IH]; [reflexivity|].
    simpl. rewrite flat_map_app, IH, app_nil_r. now apply quoted_close_dead. }
  rewrite Hdead, app_nil_r. clear Hdead Hl l.
  pose proof (quoted_body_app s1) as Happ.
  pose proof (quoted_body_stop s1) as Hstop.
  destruct (quoted_body s1) as [body r]. simpl in *.
  rewrite <- Happ at 1. rewrite consumed_suffix.
  rewrite rmatch_Char. destruct r as [|a r1]; [reflexivity|].
  simpl in Hstop. destruct (N.eqb_spec a dq) as [->|Ha]; [|discriminate].
  rewrite flat_map_single, rmatch_field_end.
  destruct r1 as [|c r']; [reflexivity|]. now destruct (c =? comma)%N.
Qed.

(** The tokenizer pattern always matches where the scan stands, and the match
    is [row_step]. *)
Lemma rmatch_row s : exists l, rmatch false row_regex (MState s []) = row_step s :: l.
Proof.
  unfold row_regex.
  change (rmatch false (Seq ?a ?b) ?st) with (flat_map (rmatch false b) (rmatch false a st)).
  change (rmatch false (Alt ?a ?b) ?st) with (rmatch false a st ++ rmatch false b st).
  rewrite flat_map_app, rmatch_quoted_field.
  destruct (rmatch_plain_field s) as (l & ->).
  unfold row_step. destruct s as [|q s1]; [now exists l|].
  destruct (q =? dq)%N; [|now exists l].
  destruct (quoted_body s1) as [body r].
  destruct r as [|a [|c r']]; simpl; eauto.
  destruct (c =? comma)%N; simpl; eauto.
Qed.

Lemma exec_row s : exec_from false row_regex s = Some ([], row_step s).
Proof. destruct (rmatch_row s) as (l & H). now apply exec_from_here with l. Qed.

(** *** Unescaping and escaping *)

Lemma rmatch_doubled_quote s :
  rmatch false doubled_quote (MState s []) =
  match s with
  | a :: b :: t => if ((a =? dq) && (b =? dq))%N then [MState t []] else []
  | _ => []
  end.
Proof.
  unfold doubled_quote.
  change (rmatch false (Seq ?a ?b) ?st) with (flat_map (rmatch false b) (rmatch false a st)).
  rewrite rmatch_Char. destruct s as [|a s1]; [reflexivity|].
  destruct (a =? dq)%N.
  - rewrite flat_map_single, rmatch_Char. destruct s1 as [|b t]; [reflexivity|].
    now destruct (b =? dq)%N.
  - now destruct s1.
Qed.

Lemma unescape_cons2 a b t :
  unescape (a :: b :: t) =
  if ((a =? dq) && (b =? dq))%N then dq :: unescape t else a :: unescape (b :: t).
Proof. reflexivity. Qed.

Lemma unescape_cons_other c s : c <> dq -> unescape (c :: s) = c :: unescape s.
Proof.
  intros Hc. apply N.eqb_neq in Hc. destruct s as [|b t]; [reflexivity|].
  now rewrite unescape_cons2, Hc.
Qed.

(** [m1.replace(/QQ/g, Q)] is [unescape]. *)
Lemma replace_doubled_quote s :
  replace_all false doubled_quote (fun _ => [dq]) s = unescape s.
Proof.
  induction s as [s IH] using str_length_ind.
  destruct s as [|a s1].
  - now apply replace_all_nil.
  - pose proof (rmatch_doubled_quote (a :: s1)) as Hm.
    destruct s1 as [|b t].
    + rewrite replace_all_miss by exact Hm.
      now rewrite replace_all_nil.
    + rewrite unescape_cons2. destruct ((a =? dq) && (b =? dq))%N.
      * erewrite replace_all_hit; [|exact Hm|simpl; lia].
        simpl. f_equal. apply IH. simpl. lia.
      * rewrite replace_all_miss by exact Hm. f_equal. apply IH. simpl. lia.
Qed.

Lemma unescape_escape v : unescape (escape_quotes v) = v.
Proof.
  induction v as [|c v IH]; [reflexivity|].
  unfold escape_quotes in *. cbn [flat_map].
  destruct (N.eqb_spec c dq) as [->|Hc].
  - cbn [app]. rewrite unescape_cons2. simpl andb. cbv iota. now rewrite IH.
  - cbn [app]. rewrite unescape_cons_other by exact Hc. now rewrite IH.
Qed.

(** [cell.replace(/\|/g, ...)] puts a backslash before every pipe. *)
Lemma escape_pipes_spec cell : escape_pipes cell = escape_cell cell.
Proof.
  unfold escape_pipes, escape_cell, pipe_regex.
  induction cell as [|c t IH].
  - now apply replace_all_nil.
  - pose proof (rmatch_Char (c :: t) [] pipe) as Hm. cbn [flat_map].
    cbv beta iota in Hm. destruct (c =? pipe)%N eqn:E.
    + erewrite replace_all_hit; [|exact Hm|simpl; lia].
      simpl. now rewrite IH.
    + rewrite replace_all_miss by exact Hm. simpl. now rewrite IH.
Qed.

(** *** The loop of [parseCsvRow] *)

Lemma row_step_shape s :
  exists sep k v,
    m_caps (row_step s) = [(3, sep); (k, v)]
    /\ (k = 1 \/ k = 2)
    /\ ((sep = [] /\ m_rest (row_step s) = [])
        \/ (sep = [comma] /\ length (m_rest (row_step s)) < length s)).
Proof.
  assert (Hplain : exists sep k v,
    m_caps (plain_step s) = [(3, sep); (k, v)]
    /\ (k = 1 \/ k = 2)
    /\ ((sep = [] /\ m_rest (plain_step s) = [])
        \/ (sep = [comma] /\ length (m_rest (plain_step s)) < length s))).
  { unfold plain_step. pose proof (field_span_app s) as Happ.
    destruct (field_span s) as [f r]. simpl in Happ.
    destruct r as [|c r']; simpl.
    - exists [], 2, f. auto.
    - exists [comma], 2, f. repeat split; auto. right. split; [reflexivity|].
      subst s. rewrite length_app. simpl. lia. }
  unfold row_step. destruct s as [|q s1]; [exact Hplain|].
  destruct (q =? dq)%N; [|exact Hplain].
  pose proof (quoted_body_app s1) as Happ.
  destruct (quoted_body s1) as [body r]. simpl in Happ.
  destruct r as [|a [|c r']]; [exact Hplain| |].
  - exists [], 1, body. simpl. auto.
  - destruct (c =? comma)%N; [|exact Hplain].
    exists [comma], 1, body. simpl. repeat split; auto. right. split; [reflexivity|].
    subst s1. rewrite length_app. simpl. lia.
Qed.

Lemma parseCsvRow_loop_fields : forall fuel s acc,
  length s < fuel ->
  parseCsvRow_loop fuel s acc = Some (acc ++ fields_fuel fuel s).
Proof.
  induction fuel as [|fuel IH]; intros s acc Hlen; [lia|].
  cbn [parseCsvRow_loop fields_fuel]. rewrite exec_row.
  unfold step_last, step_value.
  destruct (row_step_shape s) as (sep & k & v & -> & Hk & Hsep).
  destruct Hk as [->| ->]; cbn [capture Nat.eqb];
    rewrite ?replace_doubled_quote;
    (destruct Hsep as [[-> _]|[-> Hlt]]; [reflexivity|]);
    (rewrite IH by lia; now rewrite <- app_assoc).
Qed.

Lemma fields_fuel_enough : forall f1 f2 s,
  length s < f1 -> length s < f2 -> fields_fuel f1 s = fields_fuel f2 s.
Proof.
  induction f1 as [|f1 IH]; intros f2 s H1 H2; [lia|].
  destruct f2 as [|f2]; [lia|]. cbn [fields_fuel].
  unfold step_last.
  destruct (row_step_shape s) as (sep & k & v & E & _ & Hsep). rewrite E.
  cbn [capture Nat.eqb]. destruct Hsep as [[-> _]|[-> Hlt]]; [reflexivity|].
  f_equal. apply IH; lia.
Qed.

(** The tokenizer returns, and returns the fields of the row. *)
Lemma parseCsvRow_fields row : parseCsvRow row = Some (fields row).
Proof. unfold parseCsvRow. now rewrite parseCsvRow_loop_fields by lia. Qed.

Lemma fields_eq s :
  fields s =
  if step_last (row_step s) then [trim (step_value (row_step s))]
  else trim (step_value (row_step s)) :: fields (m_rest (row_step s)).
Proof.
  unfold fields at 1. cbn [fields_fuel].
  destruct (step_last (row_step s)) eqn:E; [reflexivity|]. f_equal.
  unfold fields. apply fields_fuel_enough; [|lia].
  unfold step_last in E.
  destruct (row_step_shape s) as (sep & k & v & Ec & _ & Hsep). rewrite Ec in E.
  cbn [capture Nat.eqb] in E. destruct Hsep as [[-> _]|[_ Hlt]]; [discriminate|lia].
Qed.

Lemma fields_trimmed : forall s, Forall (fun f => trim f = f) (fields s).
Proof.
  induction s as [s IH] using str_length_ind. rewrite fields_eq.
  destruct (step_last (row_step s)) eqn:E.
  - constructor; [apply trim_idem|constructor].
  - constructor; [apply trim_idem|]. apply IH.
    unfold step_last in E.
    destruct (row_step_shape s) as (sep & k & v & Ec & _ & Hsep). rewrite Ec in E.
    cbn [capture Nat.eqb] in E. destruct Hsep as [[-> _]|[_ Hlt]]; [discriminate|lia].
Qed.

Lemma fields_nonempty s : fields s <> [].
Proof. rewrite fields_eq. now destruct (step_last (row_step s)). Qed.

(** *** Quoted and plain fields *)

Lemma quoted_body_escaped v tail :
  hd_error tail <> Some dq ->
  quoted_body (escape_quotes v ++ dq :: tail) = (escape_quotes v, dq :: tail).
Proof.
  intros Htail. induction v as [|c v IH].
  - simpl. destruct tail as [|b t]; [reflexivity|].
    destruct (N.eqb_spec b dq) as [->|Hb]; [now elim Htail|reflexivity].
  - unfold escape_quotes in *. cbn [flat_map].
    destruct (N.eqb_spec c dq) as [->|Hc].
    + cbn [app quoted_body]. simpl N.eqb. cbv iota. now rewrite IH.
    + cbn [app quoted_body]. apply N.eqb_neq in Hc. rewrite Hc. now rewrite IH.
Qed.

Lemma row_step_quoted_last v :
  row_step (dq :: escape_quotes v ++ [dq]) = MState [] [(3, []); (1, escape_quotes v)].
Proof.
  unfold row_step. simpl N.eqb. cbv iota.
  now rewrite quoted_body_escaped by (simpl; discriminate).
Qed.

Lemma row_step_quoted_more v rest :
  row_step (dq :: escape_quotes v ++ dq :: comma :: rest)
  = MState rest [(3, [comma]); (1, escape_quotes v)].
Proof.
  unfold row_step. simpl N.eqb. cbv iota.
  now rewrite quoted_body_escaped by (simpl; discriminate).
Qed.

Lemma field_span_plain f tail :
  ~ In comma f -> field_span (f ++ comma :: tail) = (f, comma :: tail).
Proof.
  induction f as [|c f IH]; intros Hf.
  - reflexivity.
  - simpl. destruct (N.eqb_spec c comma) as [->|Hc]; [elim Hf; now left|].
    rewrite IH; [reflexivity|]. intros H. apply Hf. now right.
Qed.

Lemma field_span_whole f : ~ In comma f -> field_span f = (f, []).
Proof.
  induction f as [|c f IH]; intros Hf.
  - reflexivity.
  - simpl. destruct (N.eqb_spec c comma) as [->|Hc]; [elim Hf; now left|].
    rewrite IH; [reflexivity|]. intros H. apply Hf. now right.
Qed.

Lemma row_step_unquoted s : hd_error s <> Some dq -> row_step s = plain_step s.
Proof.
  intros H. unfold row_step. destruct s as [|q s1]; [reflexivity|].
  destruct (N.eqb_spec q dq) as [->|Hq]; [now elim H|reflexivity].
Qed.

(** *** Lines *)

Lemma rmatch_line_break s :
  rmatch false line_break (MState s []) =
  match s with
  | [] => []
  | c :: t =>
      if (c =? nl)%N then [MState t []]
      else match t with
           | c' :: t' => if ((c =? cr) && (c' =? nl))%N then [MState t' []] else []
           | [] => []
           end
  end.
Proof.
  unfold line_break.
  change (rmatch false (Seq ?a ?b) ?st) with (flat_map (rmatch false b) (rmatch false a st)).
  change (rmatch false (Opt ?a) ?st)
    with (filter (progressed st) (rmatch false a st) ++ [st]).
  rewrite rmatch_Char. destruct s as [|c t]; [reflexivity|].
  destruct (N.eqb_spec c cr) as [->|Hcr].
  - cbn [filter]. unfold progressed. cbn [m_rest].
    destruct (Nat.ltb_spec (length t) (length (cr :: t))); [|simpl in *; lia].
    cbn [app flat_map]. rewrite !rmatch_Char. simpl N.eqb. cbv iota.
    rewrite !app_nil_r. destruct t as [|c' t']; [reflexivity|].
    now destruct (c' =? nl)%N.
  - cbn [filter app]. rewrite flat_map_single, rmatch_Char.
    destruct (c =? nl)%N; [reflexivity|]. now destruct t.
Qed.

Lemma split_scan_lines : forall s piece,
  split_scan false line_break piece 0 s = lines_from piece s.
Proof.
  induction s as [s IH] using str_length_ind. intros piece.
  destruct s as [|c t]; [reflexivity|].
  cbn [split_scan lines_from]. rewrite rmatch_line_break.
  destruct (c =? nl)%N.
  - simpl (m_rest _). replace (length (c :: t) - length t) with 1 by (cbn [length]; lia).
    f_equal. apply IH. simpl. lia.
  - destruct t as [|c' t'].
    + apply IH. simpl. lia.
    + destruct ((c =? cr) && (c' =? nl))%N.
      * simpl (m_rest _).
        replace (length (c :: c' :: t') - length t') with 2 by (cbn [length]; lia).
        f_equal. cbn [split_scan]. apply IH. simpl. lia.
      * apply IH. simpl. lia.
Qed.

(** [content.split(/\r?\n/)] is [lines]. *)
Lemma split_lines s : split false line_break s = lines s.
Proof.
  destruct s as [|c t].
  - unfold split. now rewrite rmatch_line_break.
  - apply split_scan_lines.
Qed.

Lemma lines_from_cons piece s : exists first rest, lines_from piece s = first :: rest.
Proof.
  revert piece. induction s as [s IH] using str_length_ind. intros piece.
  destruct s as [|c t]; [now exists piece, []|].
  cbn [lines_from]. destruct (c =? nl)%N; [eauto|].
  destruct t as [|c' t']; [apply IH; simpl; lia|].
  destruct ((c =? cr) && (c' =? nl))%N; [eauto|apply IH; simpl; lia].
Qed.

(** *** Cells *)

Lemma map_const {A B : Type} (f : A -> B) (b : B) (l : list A) :
  (forall a, f a = b) -> map f l = repeat b (length l).
Proof.
  intros H. induction l as [|a l IH]; simpl; [reflexivity|]. now rewrite H, IH.
Qed.

(** [Array.from] over the header's length pads a short row with empty cells
    and cuts a long one. *)
Lemma adjust_cells_fit : forall cells width, adjust_cells width cells = fit width cells.
Proof.
  unfold adjust_cells, fit.
  induction cells as [|c cs IH]; intros width.
  - rewrite firstn_nil, Nat.sub_0_r. cbn [length app].
    rewrite (map_const (fun i => nth i (@nil str) []) (b := [])).
    + now rewrite length_seq.
    + now intros [|i].
  - destruct width as [|w]; [reflexivity|].
    cbn [seq map nth firstn length Nat.sub app]. f_equal.
    rewrite <- seq_shift, map_map. apply IH.
Qed.

Lemma fit_length width cells : length (fit width cells) = width.
Proof.
  unfold fit. rewrite length_app, length_firstn, repeat_length. lia.
Qed.

Lemma fit_short width cells :
  length cells <= width -> fit width cells = cells ++ repeat [] (width - length cells).
Proof. intros H. unfold fit. now rewrite firstn_all2. Qed.

Lemma fit_long width cells :
  width <= length cells -> fit width cells = firstn width cells.
Proof.
  intros H. unfold fit. replace (width - length cells) with 0 by lia.
  apply app_nil_r.
Qed.

Lemma mapM_total {A B : Type} (f : A -> option B) (g : A -> B) (l : list A) :
  (forall a, f a = Some (g a)) -> mapM f l = Some (map g l).
Proof.
  intros H. induction l as [|a l IH]; simpl; [reflexivity|]. now rewrite H, IH.
Qed.

Lemma table_row_spec header line :
  table_row header line
  = Some (join (lit " | ") (data_cells (length header) line)).
Proof.
  unfold table_row, data_cells. rewrite parseCsvRow_fields, adjust_cells_fit.
  do 2 f_equal. apply map_ext. intros cell. apply escape_pipes_spec.
Qed.

(** The table builder, in terms of lines, fields and rows. *)
Lemma csvToMarkdownTable_eq csv first rest :
  lines (trim csv) = first :: rest ->
  trim csv <> [] ->
  csvToMarkdownTable csv =
  Some (markdown_row (fields first) ++ [nl]
        ++ separator_row (length (fields first)) ++ [nl]
        ++ join [nl] (map (fun line => markdown_row (data_cells (length (fields first)) line))
                          (filter nonblank rest))).
Proof.
  intros Hl Hne. unfold csvToMarkdownTable.
  destruct (trim csv) as [|c t] eqn:Et; [congruence|]. cbn [is_nil].
  rewrite split_lines, Hl. cbn [tl]. rewrite parseCsvRow_fields.
  rewrite (mapM_total _ (fun line => join (lit " | ")
             (data_cells (length (fields first)) line)))
    by (intros line; apply table_row_spec).
  unfold markdown_row, separator_row, markdown_row.
  rewrite map_map, (map_const (fun _ : str => lit "---") (b := lit "---"))
    by reflexivity.
  rewrite <- !app_assoc. reflexivity.
Qed.

Lemma csvToMarkdownTable_total csv :
  csvToMarkdownTable csv = Some (markdown_table csv).
Proof.
  unfold markdown_table. destruct (trim csv) as [|c t] eqn:Et.
  - unfold csvToMarkdownTable. now rewrite Et.
  - destruct (lines_from_cons [] (c :: t)) as (first & rest & Hl).
    unfold lines. rewrite Hl. apply csvToMarkdownTable_eq.
    + now rewrite Et.
    + rewrite Et. discriminate.
Qed.

End CsvFacts.

(** ** File-name patterns *)

Module HeadingFacts.
Import Js JsFacts Heading HeadingSpec.

#[local] Arguments rmatch : simpl never.
#[local] Arguments consumed : simpl never.

Lemma eqb_str_eq a b : eqb_str a b = true <-> a = b.
Proof. unfold eqb_str. destruct (list_eq_dec N.eq_dec a b); split; congruence. Qed.

Lemma eqb_str_cons x a y b :
  eqb_str (x :: a) (y :: b) = ((x =? y)%N && eqb_str a b)%bool.
Proof.
  apply eq_true_iff_eq. rewrite andb_true_iff, !eqb_str_eq, N.eqb_eq.
  split; [intros [= -> ->]; auto|intros [-> ->]; reflexivity].
Qed.

Lemma eqb_str_nil_cons y b : eqb_str [] (y :: b) = false.
Proof. reflexivity. Qed.

Lemma eqb_str_cons_nil x a : eqb_str (x :: a) [] = false.
Proof. reflexivity. Qed.

Lemma canonicalize_lower x p :
  plain p ->
  (canonicalize true x =? canonicalize true p)%N = (lower x =? p)%N.
Proof.
  unfold plain, canonicalize, lower. intros Hp. simpl andb.
  destruct (N.leb_spec 97 x), (N.leb_spec x 122), (N.leb_spec 97 p),
    (N.leb_spec p 122), (N.leb_spec 65 x), (N.leb_spec x 90); simpl;
    apply eq_true_iff_eq; rewrite !N.eqb_eq; lia.
Qed.

Lemma rmatch_Char_ci p s caps :
  plain p ->
  rmatch true (Char p) (MState s caps) =
  match s with
  | x :: t => if (lower x =? p)%N then [MState t caps] else []
  | [] => []
  end.
Proof.
  intros Hp. destruct s as [|x t]; [reflexivity|].
  change (rmatch true (Char p) (MState (x :: t) caps))
    with (if (canonicalize true x =? canonicalize true p)%N
          then [MState t caps] else []).
  now rewrite canonicalize_lower.
Qed.

Lemma flat_map_Eol ic (l : list mstate) :
  flat_map (rmatch ic Eol) l = filter (fun st => is_nil (m_rest st)) l.
Proof.
  induction l as [|st l IH]; [reflexivity|]. cbn [flat_map filter]. rewrite IH.
  change (rmatch ic Eol st) with (match m_rest st with [] => [st] | _ => [] end).
  now destruct (m_rest st).
Qed.

Lemma flat_map_flat_map {A B C : Type} (f : A -> list B) (g : B -> list C) l :
  flat_map g (flat_map f l) = flat_map (fun a => flat_map g (f a)) l.
Proof.
  induction l as [|a l IH]; [reflexivity|]. cbn [flat_map].
  now rewrite flat_map_app, IH.
Qed.

(** A literal run up to the end of the input matches the input that equals
    it up to case. *)
Lemma rmatch_chars_Eol w : Forall plain w -> forall s caps,
  flat_map (rmatch true Eol) (rmatch true (chars w) (MState s caps))
  = if eqb_str (map lower s) w then [MState [] caps] else [].
Proof.
  induction 1 as [|p w Hp Hw IH]; intros s caps.
  - change (rmatch true (chars []) (MState s caps)) with [MState s caps].
    rewrite flat_map_Eol. now destruct s.
  - change (chars (p :: w)) with (Seq (Char p) (chars w)).
    change (rmatch true (Seq ?a ?b) ?st)
      with (flat_map (rmatch true b) (rmatch true a st)).
    rewrite flat_map_flat_map, rmatch_Char_ci by exact Hp.
    destruct s as [|x t]; [reflexivity|].
    cbn [map]. rewrite eqb_str_cons.
    destruct (lower x =? p)%N; [|reflexivity].
    rewrite flat_map_single. apply IH.
Qed.

Lemma plain_lit_md : Forall plain (lit "md").
Proof. repeat constructor; unfold plain; simpl; lia. Qed.
Lemma plain_lit_markdown : Forall plain (lit "markdown").
Proof. repeat constructor; unfold plain; simpl; lia. Qed.
Lemma plain_lit_csv : Forall plain (lit "csv").
Proof. repeat constructor; unfold plain; simpl; lia. Qed.
Lemma plain_lit_zip : Forall plain (lit "zip").
Proof. repeat constructor; unfold plain; simpl; lia. Qed.
Lemma plain_dot : plain dot.
Proof. unfold plain, dot. lia. Qed.

Lemma anchored_word w :
  Forall plain w ->
  anchored (Seq (Char dot) (Seq (chars w) Eol)) (is_ext [dot :: w]).
Proof.
  intros Hw s. unfold is_ext. cbn [existsb]. rewrite orb_false_r.
  change (rmatch true (Seq ?a ?b) ?st)
    with (flat_map (rmatch true b) (rmatch true a st)).
  rewrite rmatch_Char_ci by exact plain_dot.
  destruct s as [|x t]; [reflexivity|].
  cbn [map]. rewrite eqb_str_cons.
  destruct (lower x =? dot)%N; [|reflexivity].
  rewrite flat_map_single.
  change (rmatch true (Seq ?a ?b) ?st)
    with (flat_map (rmatch true b) (rmatch true a st)).
  rewrite rmatch_chars_Eol by exact Hw. cbn [andb].
  destruct (eqb_str (map lower t) w); [|reflexivity].
  now exists (MState [] []), [].
Qed.

Lemma anchored_csv : anchored csv_regex (is_ext [lit ".csv"]).
Proof. exact (anchored_word plain_lit_csv). Qed.

Lemma anchored_zip : anchored zip_regex (is_ext [lit ".zip"]).
Proof. exact (anchored_word plain_lit_zip). Qed.

Lemma filter_map_rest_nil (wrap : mstate -> mstate) l :
  (forall st, m_rest (wrap st) = m_rest st) ->
  filter (fun st => is_nil (m_rest st)) (map wrap l)
  = map wrap (filter (fun st => is_nil (m_rest st)) l).
Proof.
  intros Hw. induction l as [|st l IH]; [reflexivity|]. cbn [map filter].
  rewrite Hw, IH. now destruct (is_nil (m_rest st)).
Qed.

Lemma anchored_extension : anchored extension_regex (is_ext text_exts).
Proof.
  intros s. unfold is_ext, text_exts. cbn [existsb]. rewrite orb_false_r.
  unfold extension_regex.
  change (rmatch true (Seq ?a ?b) ?st)
    with (flat_map (rmatch true b) (rmatch true a st)).
  rewrite rmatch_Char_ci by exact plain_dot.
  destruct s as [|x t]; [reflexivity|].
  change (lit ".md") with (dot :: lit "md").
  change (lit ".markdown") with (dot :: lit "markdown").
  change (lit ".csv") with (dot :: lit "csv").
  cbn [map]. rewrite !eqb_str_cons.
  destruct (lower x =? dot)%N; [|reflexivity].
  rewrite flat_map_single. cbn [andb].
  change (rmatch true (Seq ?a ?b) ?st)
    with (flat_map (rmatch true b) (rmatch true a st)).
  change (rmatch true (Group 1 ?a) ?st)
    with (map (fun st' => MState (m_rest st') ((1, consumed st st') :: m_caps st'))
              (rmatch true a st)).
  change (rmatch true (Alt ?a (Alt ?b ?c)) ?st)
    with (rmatch true a st ++ rmatch true b st ++ rmatch true c st).
  rewrite flat_map_Eol, filter_map_rest_nil by reflexivity.
  rewrite !filter_app, <- !(flat_map_Eol true).
  rewrite (rmatch_chars_Eol plain_lit_md), (rmatch_chars_Eol plain_lit_markdown),
    (rmatch_chars_Eol plain_lit_csv).
  destruct (eqb_str (map lower t) (lit "md")); [cbn; eauto|].
  destruct (eqb_str (map lower t) (lit "markdown")); [cbn; eauto|].
  destruct (eqb_str (map lower t) (lit "csv")); [cbn; eauto|reflexivity].
Qed.

(** [regex.test(name)] looks for a place where the pattern matches. *)
Lemma test_anchored r here :
  anchored r here -> forall name, test true r name = any_suffix here name.
Proof.
  intros Ha. unfold test. induction name as [|c t IH].
  - cbn [any_suffix exec_from]. specialize (Ha []).
    destruct (here []).
    + destruct Ha as (st & l & -> & _). reflexivity.
    + now rewrite Ha.
  - cbn [any_suffix]. pose proof (Ha (c :: t)) as H.
    destruct (here (c :: t)).
    + destruct H as (st & l & H & _). now rewrite (exec_from_here true r (c :: t) H).
    + rewrite (exec_from_later true r c t H). cbn [orb]. rewrite <- IH.
      now destruct (exec_from true r t) as [[sk st]|].
Qed.

(** Replacing the match by nothing cuts the suffix. *)
Lemma replace_first_anchored r here :
  anchored r here -> forall name,
  replace_first true r (fun _ => []) name = cut_suffix here name.
Proof.
  intros Ha. unfold replace_first. induction name as [|c t IH].
  - cbn [cut_suffix exec_from]. specialize (Ha []).
    destruct (here []).
    + destruct Ha as (st & l & -> & ->). reflexivity.
    + now rewrite Ha.
  - cbn [cut_suffix]. pose proof (Ha (c :: t)) as H.
    destruct (here (c :: t)).
    + destruct H as (st & l & H & Hr).
      rewrite (exec_from_here true r (c :: t) H). now rewrite Hr.
    + rewrite (exec_from_later true r c t H). rewrite <- IH.
      now destruct (exec_from true r t) as [[sk st]|].
Qed.

Lemma test_extension name :
  test true extension_regex name = has_extensionb text_exts name.
Proof. apply test_anchored, anchored_extension. Qed.

Lemma test_zip name : test true zip_regex name = has_extensionb [lit ".zip"] name.
Proof. apply test_anchored, anchored_zip. Qed.

Lemma test_csv name : test true csv_regex name = has_extensionb [lit ".csv"] name.
Proof. apply test_anchored, anchored_csv. Qed.

Lemma strip_extension_stem name : strip_extension name = stem name.
Proof. apply replace_first_anchored, anchored_extension. Qed.

Lemma any_suffix_iff here s :
  any_suffix here s = true <-> exists base e, s = base ++ e /\ here e = true.
Proof.
  induction s as [|c t IH]; cbn [any_suffix]; rewrite orb_true_iff.
  - split.
    + intros [H|H]; [now exists [], []|discriminate].
    + intros (base & e & H & He). symmetry in H. apply app_eq_nil in H.
      destruct H as [-> ->]. now left.
  - rewrite IH. split.
    + intros [H|(base & e & -> & He)]; [now exists [], (c :: t)|].
      now exists (c :: base), e.
    + intros (base & e & H & He). destruct base as [|b base].
      * left. simpl in H. now subst e.
      * right. injection H as -> ->. now exists base, e.
Qed.

Lemma has_extension_iff exts name :
  has_extensionb exts name = true <-> has_extension exts name.
Proof. apply any_suffix_iff. Qed.

(** An extension starts at its only dot, so one name has at most one. *)
Lemma is_ext_text_unique u e :
  is_ext text_exts e = true -> is_ext text_exts (u ++ e) = true -> u = [].
Proof.
  intros He Hue. destruct u as [|u1 u]; [reflexivity|]. exfalso.
  assert (Hdot : exists e', map lower e = dot :: e').
  { unfold is_ext, text_exts in He. cbn [existsb] in He.
    rewrite orb_false_r, !orb_true_iff, !eqb_str_eq in He.
    destruct He as [H|[H|H]]; rewrite H; eexists; reflexivity. }
  destruct Hdot as (e' & Hdot).
  unfold is_ext, text_exts in Hue. cbn [existsb] in Hue.
  rewrite orb_false_r, !orb_true_iff, !eqb_str_eq in Hue.
  rewrite map_app, Hdot in Hue. cbn [map app] in Hue.
  assert (Hin : forall w, lower u1 :: map lower u ++ dot :: e' = w -> In dot (tl w)).
  { intros w <-. cbn [tl]. apply in_or_app. right. now left. }
  destruct Hue as [H|[H|H]]; apply Hin in H; cbn in H;
    unfold dot in H; intuition discriminate.
Qed.

Lemma stem_of_name base e :
  is_ext text_exts e = true -> stem (base ++ e) = base.
Proof.
  intros He. unfold stem. induction base as [|c base IH].
  - cbn [app]. destruct e; cbn [cut_suffix]; now rewrite He.
  - cbn [app cut_suffix].
    destruct (is_ext text_exts (c :: base ++ e)) eqn:E.
    + apply (is_ext_text_unique (c :: base) e He) in E. discriminate.
    + now rewrite IH.
Qed.

Lemma cut_suffix_none here s : any_suffix here s = false -> cut_suffix here s = s.
Proof.
  induction s as [|c t IH]; cbn [any_suffix cut_suffix]; intros H;
    apply orb_false_iff in H; destruct H as [-> H]; [reflexivity|].
  now rewrite IH.
Qed.

(** *** The escaped characters *)

Lemma special_class_spec c :
  class_matches false false special_class c = (is_special c || (c =? comma)%N)%bool.
Proof.
  unfold class_matches, special_class, is_special, markdown_specials.
  cbn [existsb item_matches xorb]. unfold canonicalize, bs, comma. cbn [andb orb].
  rewrite !(N.eqb_sym _ c). apply eq_true_iff_eq.
  rewrite !orb_true_iff, !andb_true_iff, !N.eqb_eq, !N.leb_le.
  split; intros H; lia.
Qed.

Lemma rmatch_special c t :
  rmatch false special_regex (MState (c :: t) []) =
  if class_matches false false special_class c then [MState t [(1, [c])]] else [].
Proof.
  unfold special_regex.
  change (rmatch false (Group 1 ?a) ?st)
    with (map (fun st' => MState (m_rest st') ((1, consumed st st') :: m_caps st'))
              (rmatch false a st)).
  change (rmatch false (Class false special_class) (MState (c :: t) []))
    with (if class_matches false false special_class c then [MState t []] else []).
  destruct (class_matches false false special_class c); [|reflexivity].
  cbn [map m_rest m_caps]. change (c :: t) with ([c] ++ t).
  now rewrite CsvFacts.consumed_suffix.
Qed.

(** What the heading synthesizer does to a name: the extension goes, and a
    backslash comes before every character of the class, the comma among
    them. *)
Lemma sanitizeFilenameForHeader_spec name :
  sanitizeFilenameForHeader name =
  flat_map (fun c => if (is_special c || (c =? comma)%N)%bool then [bs; c] else [c])
           (stem name).
Proof.
  unfold sanitizeFilenameForHeader. rewrite strip_extension_stem.
  induction (stem name) as [|c t IH].
  - now apply replace_all_nil.
  - pose proof (rmatch_special c t) as Hm. rewrite special_class_spec in Hm.
    cbn [flat_map]. destruct (is_special c || (c =? comma)%N)%bool.
    + erewrite replace_all_hit; [|exact Hm|simpl; lia].
      cbn [m_caps capture Nat.eqb m_rest]. now rewrite IH.
    + rewrite replace_all_miss by exact Hm. now rewrite IH.
Qed.

End HeadingFacts.

(** ** The upload handler *)

Module UploadFacts.
Import Js JsFacts Heading HeadingSpec HeadingFacts App UploadSpec.

Lemma processSingleFile_record stamp fileName text :
  processSingleFile stamp fileName text = Some (record_of stamp fileName text).
Proof.
  unfold processSingleFile, record_of. rewrite test_csv.
  destruct (has_extensionb [lit ".csv"] fileName); [|reflexivity].
  now rewrite CsvFacts.csvToMarkdownTable_total.
Qed.

Lemma setFiles_files f st : files (setFiles f st) = f (files st).
Proof. reflexivity. Qed.

(** *** [Promise.all] *)

Lemma rejections_nil now ps :
  rejections now ps = [] ->
  forall p, In p ps -> immediate p = now -> exists records, outcome p = Resolved records.
Proof.
  unfold rejections. induction ps as [|q ps IH]; intros H p Hin Hnow; [destruct Hin|].
  cbn [flat_map] in H. apply app_eq_nil in H. destruct H as [Hq Hps].
  destruct Hin as [->|Hin]; [|now apply IH].
  destruct (outcome p) as [records|message]; [now exists records|].
  rewrite Hnow, eqb_reflx in Hq. discriminate.
Qed.

Lemma promise_all_rejects race ps p message :
  In p ps -> outcome p = Rejected message ->
  exists reason, promise_all race ps = inr reason.
Proof.
  intros Hin Hout. unfold promise_all.
  destruct (rejections true ps) as [|m ms] eqn:Et; [|now exists m].
  destruct (rejections false ps) as [|m ms] eqn:Ef; [|now eexists].
  exfalso. destruct (immediate p) eqn:Ei.
  - destruct (rejections_nil _ Et p Hin Ei) as (r & Hr). congruence.
  - destruct (rejections_nil _ Ef p Hin Ei) as (r & Hr). congruence.
Qed.

Lemma rejections_all_resolved now ps :
  Forall (fun p => exists records, outcome p = Resolved records) ps ->
  rejections now ps = [].
Proof.
  induction 1 as [|p ps (r & Hr) _ IH]; [reflexivity|].
  unfold rejections in *. cbn [flat_map]. now rewrite Hr, IH.
Qed.

Lemma promise_all_resolves race ps :
  Forall (fun p => exists records, outcome p = Resolved records) ps ->
  promise_all race ps = inl (resolutions ps).
Proof.
  intros H. unfold promise_all. now rewrite !rejections_all_resolved.
Qed.

(** *** One call *)

Lemma processFiles_complete_rejected race jszip filesLength droppedFiles st reason :
  promise_all race (map (handleFile jszip) droppedFiles) = inr reason ->
  files (processFiles_complete race jszip filesLength droppedFiles st) = files st
  /\ error (processFiles_complete race jszip filesLength droppedFiles st) = Some reason.
Proof. intros H. unfold processFiles_complete. now rewrite H. Qed.

Lemma processFiles_complete_resolved race jszip filesLength droppedFiles st nested :
  promise_all race (map (handleFile jszip) droppedFiles) = inl nested ->
  filesLength + length (concat nested) <= MAX_FILES ->
  files (processFiles_complete race jszip filesLength droppedFiles st)
    = files st ++ concat nested
  /\ error (processFiles_complete race jszip filesLength droppedFiles st) = error st.
Proof.
  intros H Hroom. unfold processFiles_complete. rewrite H.
  destruct (Nat.ltb_spec MAX_FILES (filesLength + length (concat nested))); [lia|].
  split; reflexivity.
Qed.

Lemma slice_to_firstn {A : Type} (n : nat) (l : list A) :
  slice_to (Z.of_nat n) l = firstn n l.
Proof.
  unfold slice_to. destruct (Z.ltb_spec (Z.of_nat n) 0); [lia|].
  now rewrite Nat2Z.id.
Qed.

Lemma processFiles_complete_overflow race jszip filesLength droppedFiles st nested :
  promise_all race (map (handleFile jszip) droppedFiles) = inl nested ->
  filesLength < MAX_FILES ->
  MAX_FILES < filesLength + length (concat nested) ->
  files (processFiles_complete race jszip filesLength droppedFiles st)
    = files st ++ firstn (MAX_FILES - filesLength) (concat nested)
  /\ error (processFiles_complete race jszip filesLength droppedFiles st)
     = Some limit_exceeded.
Proof.
  intros H Hlt Hover. unfold processFiles_complete. rewrite H.
  destruct (Nat.ltb_spec MAX_FILES (filesLength + length (concat nested))); [|lia].
  rewrite <- Nat2Z.inj_sub by lia. cbn [files error setStatusMessage setIsLoading setFiles setError].
  now rewrite slice_to_firstn.
Qed.

Lemma processFiles_eq race jszip droppedFiles st :
  processFiles race jszip droppedFiles st =
  if MAX_FILES <=? length (files st)
  then setError (Some limit_reached) (setError None st)
  else processFiles_complete race jszip (length (files st)) droppedFiles
         (setIsLoading true
            (setStatusMessage (lit "Processing files...") (setError None st))).
Proof.
  unfold processFiles, processFiles_begin.
  now destruct (MAX_FILES <=? length (files st)).
Qed.

(** A call that overlaps no other update keeps the list within the limit. *)
Lemma processFiles_within_limit race jszip droppedFiles st :
  length (files st) <= MAX_FILES ->
  length (files (processFiles race jszip droppedFiles st)) <= MAX_FILES.
Proof.
  intros Hcap. rewrite processFiles_eq.
  destruct (Nat.leb_spec MAX_FILES (length (files st))) as [Hfull|Hroom]; [exact Hcap|].
  set (st1 := setIsLoading true _).
  change (length (files st)) with (length (files st1)) in *.
  destruct (promise_all race (map (handleFile jszip) droppedFiles)) as [nested|reason] eqn:E.
  - destruct (Nat.ltb_spec MAX_FILES (length (files st1) + length (concat nested))).
    + destruct (@processFiles_complete_overflow race jszip _ droppedFiles st1 nested E Hroom H)
        as [-> _].
      rewrite length_app, length_firstn. lia.
    + destruct (@processFiles_complete_resolved race jszip _ droppedFiles st1 nested E H)
        as [-> _].
      rewrite length_app. lia.
  - destruct (@processFiles_complete_rejected race jszip (length (files st1)) droppedFiles
                st1 reason E) as [-> _].
    lia.
Qed.

Lemma removeFile_within_limit fileId st :
  length (files st) <= MAX_FILES -> length (files (removeFile fileId st)) <= MAX_FILES.
Proof.
  intros H. unfold removeFile. rewrite setFiles_files.
  pose proof (filter_length_le (fun file => negb (eqb_str (id file) fileId)) (files st)).
  lia.
Qed.

Lemma clearAll_within_limit st : length (files (clearAll st)) <= MAX_FILES.
Proof. unfold clearAll, MAX_FILES. simpl. lia. Qed.

Lemma mapM_Forall {A B : Type} (f : A -> option B) (g : A -> B) (l : list A) :
  Forall (fun a => f a = Some (g a)) l -> mapM f l = Some (map g l).
Proof.
  induction 1 as [|a l Ha _ IH]; [reflexivity|]. cbn [mapM map]. now rewrite Ha, IH.
Qed.

Lemma zip_member_kept_spec zipEntry : zip_member_kept zipEntry = member_kept zipEntry.
Proof. unfold zip_member_kept, member_kept. now rewrite test_extension. Qed.

(** An archive within the limit that JSZip can read, with readable members. *)
Lemma handleFile_zip file entries :
  has_extensionb [lit ".zip"] (file_name file) = true ->
  (file_size file <= 25 * 1024 * 1024)%N ->
  file_zip file = Some entries ->
  Forall (fun zipEntry => entry_text zipEntry <> None) (filter member_kept entries) ->
  handleFile true file
  = {| immediate := false;
       outcome := Resolved (map member_record (filter member_kept entries)) |}.
Proof.
  intros Hzip Hsize Hload Htext. unfold handleFile.
  rewrite test_zip, Hzip.
  destruct (N.ltb_spec MAX_ZIP_FILE_SIZE_BYTES (file_size file)) as [Hbig|_].
  { unfold MAX_ZIP_FILE_SIZE_BYTES, MAX_ZIP_FILE_SIZE_MB in Hbig. lia. }
  cbn [negb]. rewrite Hload.
  rewrite (filter_ext _ _ zip_member_kept_spec).
  rewrite (mapM_Forall zip_member_record member_record); [reflexivity|].
  induction Htext as [|zipEntry l Ht _ IH]; constructor; [|exact IH].
  unfold zip_member_record, member_record.
  destruct (entry_text zipEntry) as [text|]; [|congruence].
  apply processSingleFile_record.
Qed.

Lemma handleFile_unsupported jszip file :
  has_extensionb [lit ".zip"] (file_name file) = false ->
  has_extensionb text_exts (file_name file) = false ->
  handleFile jszip file = {| immediate := true; outcome := Resolved [] |}.
Proof.
  intros Hzip Htext. unfold handleFile. now rewrite test_zip, Hzip, test_extension, Htext.
Qed.

Lemma handleFile_file_too_large jszip file :
  has_extensionb [lit ".zip"] (file_name file) = false ->
  has_extensionb text_exts (file_name file) = true ->
  (5 * 1024 * 1024 < file_size file)%N ->
  handleFile jszip file
  = {| immediate := true; outcome := Rejected (file_too_large (file_name file)) |}.
Proof.
  intros Hzip Htext Hsize. unfold handleFile.
  rewrite test_zip, Hzip, test_extension, Htext.
  destruct (N.ltb_spec MAX_FILE_SIZE_BYTES (file_size file)) as [_|Hsmall]; [reflexivity|].
  unfold MAX_FILE_SIZE_BYTES, MAX_FILE_SIZE_MB in Hsmall. lia.
Qed.

Lemma handleFile_zip_too_large jszip file :
  has_extensionb [lit ".zip"] (file_name file) = true ->
  (25 * 1024 * 1024 < file_size file)%N ->
  handleFile jszip file
  = {| immediate := true; outcome := Rejected (zip_too_large (file_name file)) |}.
Proof.
  intros Hzip Hsize. unfold handleFile. rewrite test_zip, Hzip.
  destruct (N.ltb_spec MAX_ZIP_FILE_SIZE_BYTES (file_size file)) as [_|Hsmall]; [reflexivity|].
  unfold MAX_ZIP_FILE_SIZE_BYTES, MAX_ZIP_FILE_SIZE_MB in Hsmall. lia.
Qed.

Lemma handleFile_zip_corrupt file :
  has_extensionb [lit ".zip"] (file_name file) = true ->
  (file_size file <= 25 * 1024 * 1024)%N ->
  file_zip file = None ->
  handleFile true file
  = {| immediate := false; outcome := Rejected (zip_failed (file_name file)) |}.
Proof.
  intros Hzip Hsize Hload. unfold handleFile. rewrite test_zip, Hzip.
  destruct (N.ltb_spec MAX_ZIP_FILE_SIZE_BYTES (file_size file)) as [Hbig|_].
  { unfold MAX_ZIP_FILE_SIZE_BYTES, MAX_ZIP_FILE_SIZE_MB in Hbig. lia. }
  cbn [negb]. now rewrite Hload.
Qed.

Lemma handleFile_read_error jszip file :
  has_extensionb [lit ".zip"] (file_name file) = false ->
  has_extensionb text_exts (file_name file) = true ->
  (file_size file <= 5 * 1024 * 1024)%N ->
  file_text file = None ->
  handleFile jszip file
  = {| immediate := false; outcome := Rejected (read_failed (file_name file)) |}.
Proof.
  intros Hzip Htext Hsize Hread. unfold handleFile.
  rewrite test_zip, Hzip, test_extension, Htext.
  destruct (N.ltb_spec MAX_FILE_SIZE_BYTES (file_size file)) as [Hbig|_].
  { unfold MAX_FILE_SIZE_BYTES, MAX_FILE_SIZE_MB in Hbig. lia. }
  now rewrite Hread.
Qed.

Lemma handleFile_zip_unloaded file :
  has_extensionb [lit ".zip"] (file_name file) = true ->
  (file_size file <= 25 * 1024 * 1024)%N ->
  handleFile false file
  = {| immediate := true;
       outcome := Rejected (lit "ZIP library not loaded. Please refresh.") |}.
Proof.
  intros Hzip Hsize. unfold handleFile. rewrite test_zip, Hzip.
  destruct (N.ltb_spec MAX_ZIP_FILE_SIZE_BYTES (file_size file)) as [Hbig|_]; [|reflexivity].
  unfold MAX_ZIP_FILE_SIZE_BYTES, MAX_ZIP_FILE_SIZE_MB in Hbig. lia.
Qed.

(** Each failure of the list makes the promise of the file reject. *)
Lemma failure_rejects jszip file : failure file ->
  exists message, outcome (handleFile jszip file) = Rejected message.
Proof.
  intros [Hzip Htext Hsize|Hzip Hsize|Hzip Hsize Hload|Hzip Htext Hsize Hread].
  - rewrite handleFile_file_too_large by assumption. now eexists.
  - rewrite handleFile_zip_too_large by assumption. now eexists.
  - destruct jszip.
    + rewrite handleFile_zip_corrupt by assumption. now eexists.
    + rewrite handleFile_zip_unloaded by assumption. now eexists.
  - rewrite handleFile_read_error by assumption. now eexists.
Qed.

Lemma processFiles_complete_rejecting race jszip filesLength droppedFiles st file message :
  In file droppedFiles ->
  outcome (handleFile jszip file) = Rejected message ->
  files (processFiles_complete race jszip filesLength droppedFiles st) = files st
  /\ exists reason,
       error (processFiles_complete race jszip filesLength droppedFiles st) = Some reason.
Proof.
  intros Hin Hout.
  destruct (@promise_all_rejects race (map (handleFile jszip) droppedFiles)
              (handleFile jszip file) message (in_map _ _ _ Hin) Hout) as (reason & E).
  destruct (@processFiles_complete_rejected race jszip filesLength
              droppedFiles st reason E) as [-> ->].
  split; [reflexivity|now eexists].
Qed.

(** A batch of one file whose promise is rejected at once. *)
Lemma processFiles_single_rejected race jszip file st message :
  handleFile jszip file = {| immediate := true; outcome := Rejected message |} ->
  length (files st) < MAX_FILES ->
  error (processFiles race jszip [file] st) = Some message.
Proof.
  intros Hp Hroom. rewrite processFiles_eq.
  destruct (Nat.leb_spec MAX_FILES (length (files st))); [lia|].
  unfold processFiles_complete, promise_all, rejections. cbn [map flat_map].
  now rewrite Hp.
Qed.

(** A batch of one file whose promise resolves, with room for its records. *)
Lemma processFiles_single_resolved race jszip file st now records :
  handleFile jszip file = {| immediate := now; outcome := Resolved records |} ->
  length (files st) + length records <= MAX_FILES ->
  length (files st) < MAX_FILES ->
  files (processFiles race jszip [file] st) = files st ++ records
  /\ error (processFiles race jszip [file] st) = None.
Proof.
  intros Hp Hroom Hlt. rewrite processFiles_eq.
  destruct (Nat.leb_spec MAX_FILES (length (files st))); [lia|].
  set (st1 := setIsLoading true _).
  assert (E : promise_all race (map (handleFile jszip) [file]) = inl [records]).
  { unfold promise_all, rejections, resolutions. cbn [map flat_map]. now rewrite Hp. }
  destruct (@processFiles_complete_resolved race jszip (length (files st)) [file]
              st1 [records] E) as [-> ->].
  - cbn [concat]. rewrite app_nil_r. exact Hroom.
  - cbn [concat]. rewrite app_nil_r. split; reflexivity.
Qed.

(** A batch with a rejecting file leaves the list as it is. *)
Lemma processFiles_rejected race jszip droppedFiles st file message :
  In file droppedFiles ->
  outcome (handleFile jszip file) = Rejected message ->
  files (processFiles race jszip droppedFiles st) = files st
  /\ exists reason, error (processFiles race jszip droppedFiles st) = Some reason.
Proof.
  intros Hin Hout. rewrite processFiles_eq.
  destruct (MAX_FILES <=? length (files st)).
  - split; [reflexivity|now eexists].
  - destruct (@promise_all_rejects race (map (handleFile jszip) droppedFiles)
                (handleFile jszip file) message (in_map _ _ _ Hin) Hout) as (reason & E).
    set (st1 := setIsLoading true _).
    destruct (@processFiles_complete_rejected race jszip (length (files st))
                droppedFiles st1 reason E) as [-> ->].
    split; [reflexivity|now eexists].
Qed.

Lemma rejections_app now ps qs :
  rejections now (ps ++ qs) = rejections now ps ++ rejections now qs.
Proof. apply flat_map_app. Qed.

Lemma resolutions_app ps qs : resolutions (ps ++ qs) = resolutions ps ++ resolutions qs.
Proof. apply flat_map_app. Qed.

(** A promise that resolves to no record changes nothing in what
    [Promise.all] hands on. *)
Lemma promise_all_ignores race ps qs p :
  outcome p = Resolved [] ->
  match promise_all race (ps ++ p :: qs), promise_all race (ps ++ qs) with
  | inl with_p, inl without => concat with_p = concat without
  | inr with_p, inr without => with_p = without
  | _, _ => False
  end.
Proof.
  intros Hp. unfold promise_all.
  assert (Hrej : forall now, rejections now (ps ++ p :: qs) = rejections now (ps ++ qs)).
  { intros now. rewrite !rejections_app. f_equal. unfold rejections. cbn [flat_map].
    now rewrite Hp. }
  rewrite !Hrej.
  destruct (rejections true (ps ++ qs)); [|reflexivity].
  destruct (rejections false (ps ++ qs)); [|reflexivity].
  rewrite !resolutions_app, !concat_app. f_equal.
  unfold resolutions. cbn [flat_map]. now rewrite Hp.
Qed.

Lemma processFiles_ignores race jszip before after file st :
  outcome (handleFile jszip file) = Resolved [] ->
  processFiles race jszip (before ++ file :: after) st
  = processFiles race jszip (before ++ after) st.
Proof.
  intros Hp. rewrite !processFiles_eq.
  destruct (MAX_FILES <=? length (files st)); [reflexivity|].
  unfold processFiles_complete. rewrite !map_app. cbn [map].
  pose proof (@promise_all_ignores race (map (handleFile jszip) before)
                (map (handleFile jszip) after) (handleFile jszip file) Hp) as H.
  destruct (promise_all race (map (handleFile jszip) before
                              ++ handleFile jszip file :: map (handleFile jszip) after))
    as [with_p|with_p],
    (promise_all race (map (handleFile jszip) before ++ map (handleFile jszip) after))
    as [without|without]; try contradiction; now rewrite H.
Qed.

(** *** The limit, for calls that do not overlap *)

Lemma processFiles_refuses_when_full race jszip droppedFiles st :
  MAX_FILES <= length (files st) ->
  files (processFiles race jszip droppedFiles st) = files st
  /\ error (processFiles race jszip droppedFiles st) = Some limit_reached.
Proof.
  intros Hfull. rewrite processFiles_eq.
  destruct (Nat.leb_spec MAX_FILES (length (files st))); [|lia]. split; reflexivity.
Qed.

Lemma processFiles_fills_to_limit race jszip droppedFiles st nested :
  promise_all race (map (handleFile jszip) droppedFiles) = inl nested ->
  length (files st) < MAX_FILES ->
  MAX_FILES < length (files st) + length (concat nested) ->
  files (processFiles race jszip droppedFiles st)
  = files st ++ firstn (MAX_FILES - length (files st)) (concat nested)
  /\ error (processFiles race jszip droppedFiles st) = Some limit_exceeded.
Proof.
  intros E Hroom Hover. rewrite processFiles_eq.
  destruct (Nat.leb_spec MAX_FILES (length (files st))); [lia|].
  set (st1 := setIsLoading true _).
  exact (@processFiles_complete_overflow race jszip (length (files st)) droppedFiles
           st1 nested E Hroom Hover).
Qed.

Lemma step_drop_settle race jszip p droppedFiles :
  in_flight p = [] ->
  step race jszip (step race jszip p (Drop droppedFiles)) (Settle 0)
  = {| app := processFiles race jszip droppedFiles (app p); in_flight := [] |}.
Proof.
  intros Hnone. unfold step at 2, processFiles. rewrite Hnone.
  destruct (processFiles_begin (length (files (app p))) (app p)) as [st goes_on].
  destruct goes_on; reflexivity.
Qed.

(** While the calls follow one another, the list stays within the limit. *)
Lemma one_at_a_time_within_limit race jszip : forall n evs p,
  length evs <= n ->
  one_at_a_time evs = true ->
  in_flight p = [] ->
  length (files (app p)) <= MAX_FILES ->
  length (files (app (run race jszip p evs))) <= MAX_FILES.
Proof.
  unfold run. induction n as [|n IH]; intros evs p Hn Hseq Hnone Hcap.
  - destruct evs; [exact Hcap|simpl in Hn; lia].
  - destruct evs as [|ev evs]; [exact Hcap|]. destruct ev as [batch|k|fileId|].
    + destruct evs as [|[b|[|k]|fileId|] evs]; try discriminate.
      cbn [fold_left]. rewrite step_drop_settle by exact Hnone.
      apply IH; [simpl in *; lia|exact Hseq|reflexivity|].
      now apply processFiles_within_limit.
    + discriminate.
    + cbn [fold_left]. apply IH; [simpl in *; lia|exact Hseq|exact Hnone|].
      now apply removeFile_within_limit.
    + cbn [fold_left]. apply IH; [simpl in *; lia|exact Hseq|exact Hnone|].
      apply clearAll_within_limit.
Qed.

End UploadFacts.

(** ** Output *)

Module DownloadFacts.
Import Js Heading HeadingSpec HeadingFacts App Json Download DownloadSpec.

Lemma fold_left_append {A B : Type} (g : A -> B) (l : list A) (acc : list B) :
  fold_left (fun zip a => zip ++ [g a]) l acc = acc ++ map g l.
Proof.
  revert acc. induction l as [|a l IH]; intros acc; cbn [fold_left map].
  - now rewrite app_nil_r.
  - rewrite IH, <- app_assoc. reflexivity.
Qed.

Lemma handleDownload_json_combined w files :
  files <> [] -> libraries_loaded w = true ->
  handleDownload w json_output true files
  = (None, Some (SaveBlob (lit "rag-combined.json") (lit "application/json")
                          (stringify (JArray (map name_content files)) 2))).
Proof.
  intros Hne Hw. unfold handleDownload, libraries_loaded in *.
  destruct files as [|f fs]; [congruence|]. cbn [length Nat.eqb].
  apply andb_true_iff in Hw. destruct Hw as [Hw ->].
  apply andb_true_iff in Hw. destruct Hw as [Hw ->].
  apply andb_true_iff in Hw. destruct Hw as [-> ->]. reflexivity.
Qed.

Lemma handleDownload_json_separate w files :
  files <> [] -> libraries_loaded w = true ->
  handleDownload w json_output false files
  = (None, Some (SaveZip (lit "rag-json.zip")
       (map (fun file => (stem (name file) ++ lit ".json",
                          Text (stringify (name_content file) 2))) files))).
Proof.
  intros Hne Hw. unfold handleDownload, libraries_loaded in *.
  destruct files as [|f fs]; [congruence|]. cbn [length Nat.eqb].
  apply andb_true_iff in Hw. destruct Hw as [Hw ->].
  apply andb_true_iff in Hw. destruct Hw as [Hw ->].
  apply andb_true_iff in Hw. destruct Hw as [-> ->]. cbn [negb orb].
  rewrite (fold_left_append
             (fun file => (strip_extension (name file) ++ lit ".json",
                           Text (stringify (name_content file) 2)))).
  cbn [app]. do 3 f_equal. apply map_ext. intros file.
  now rewrite strip_extension_stem.
Qed.

Lemma serialize_name_content indent file :
  serialize (lit "  ") indent (name_content file) = object_text indent file.
Proof.
  unfold name_content, object_text. cbn [serialize map is_nil fst snd join app lit].
  rewrite <- !app_assoc. reflexivity.
Qed.

Lemma stringify_records files :
  files <> [] ->
  stringify (JArray (map name_content files)) 2
  = lit "[" ++ [nl] ++ lit "  "
    ++ join (lit "," ++ [nl] ++ lit "  ") (map (object_text (lit "  ")) files)
    ++ [nl] ++ lit "]".
Proof.
  intros Hne. unfold stringify. change (repeat 32%N (Nat.min 2 10)) with (lit "  ").
  cbn [serialize]. rewrite map_map. change ([] ++ lit "  ") with (lit "  ").
  rewrite (map_ext _ (object_text (lit "  ")))
    by (intros file; apply serialize_name_content).
  destruct files as [|f fs]; [congruence|]. reflexivity.
Qed.

End DownloadFacts.

(** ** The properties of the specification *)

Module Properties.
Import Js JsFacts Csv CsvSpec CsvFacts Heading HeadingSpec HeadingFacts.
Import App UploadSpec UploadFacts Json Download DownloadSpec DownloadFacts Samples.

(** C1.  For a CSV text whose trimmed content is empty, [csvToMarkdownTable]
    returns the empty string.  Otherwise it returns a header row made of the
    fields of the first line, joined by [ | ] between [| ] and [ |]; then a
    separator row with one [---] per header field; then one table row for every
    later line whose trimmed content is not empty, in the order of the lines.
    The lines are those of the trimmed content, cut at every newline with the
    carriage return that may precede it. *)
Theorem csvToMarkdownTable_table (csv : str) :
  (trim csv = [] -> csvToMarkdownTable csv = Some [])
  /\ (trim csv <> [] ->
      exists first rest header,
        lines (trim csv) = first :: rest
        /\ parseCsvRow first = Some header
        /\ csvToMarkdownTable csv =
           Some ((lit "| " ++ join (lit " | ") header ++ lit " |") ++ [nl]
                 ++ (lit "| " ++ join (lit " | ") (repeat (lit "---") (length header))
                     ++ lit " |") ++ [nl]
                 ++ join [nl]
                      (map (fun line => markdown_row (data_cells (length header) line))
                           (filter (fun line => negb (is_nil (trim line))) rest)))).
Proof.
  split.
  - intros H. unfold csvToMarkdownTable. now rewrite H.
  - intros H. destruct (lines_from_cons [] (trim csv)) as (first & rest & Hl).
    exists first, rest, (fields first). split; [exact Hl|].
    split; [apply parseCsvRow_fields|].
    now rewrite (csvToMarkdownTable_eq csv Hl H).
Qed.

Lemma csvToMarkdownTable_table_witness :
  trim stock_csv <> []
  /\ exists first rest header,
       lines (trim stock_csv) = first :: rest
       /\ parseCsvRow first = Some header
       /\ csvToMarkdownTable stock_csv =
          Some ((lit "| " ++ join (lit " | ") header ++ lit " |") ++ [nl]
                ++ (lit "| " ++ join (lit " | ") (repeat (lit "---") (length header))
                    ++ lit " |") ++ [nl]
                ++ join [nl]
                     (map (fun line => markdown_row (data_cells (length header) line))
                          (filter (fun line => negb (is_nil (trim line))) rest))).
Proof.
  assert (Hne : trim stock_csv <> []) by (vm_compute; discriminate).
  split; [exact Hne|].
  exact (proj2 (csvToMarkdownTable_table stock_csv) Hne).
Defined.

(** The table of that text. *)
Example csvToMarkdownTable_stock :
  csvToMarkdownTable stock_csv
  = Some (lit "| name | qty |" ++ [nl] ++ lit "| --- | --- |" ++ [nl]
          ++ lit "| nut | 3 |" ++ [nl] ++ lit "| bolt | 4 |").
Proof. vm_compute. reflexivity. Qed.

(** C2.  The row tokenizer follows the quoting of RFC 4180.  It always returns,
    and every value it returns is trimmed.  A field between double quotes
    whose inner quotes are doubled is one field, commas included, and its
    value has every doubled quote turned into one quote; this holds for the
    last field of a row and for a field that a comma follows.  A field that
    does not start with a quote runs to the next comma, or to the end of the
    row. *)
Theorem parseCsvRow_rfc4180 :
  (forall row, exists values,
      parseCsvRow row = Some values /\ Forall (fun v => trim v = v) values)
  /\ (forall v, parseCsvRow ([dq] ++ escape_quotes v ++ [dq]) = Some [trim v])
  /\ (forall v rest values,
        parseCsvRow rest = Some values ->
        parseCsvRow ([dq] ++ escape_quotes v ++ [dq; comma] ++ rest)
        = Some (trim v :: values))
  /\ (forall f,
        ~ In comma f -> hd_error f <> Some dq -> parseCsvRow f = Some [trim f])
  /\ (forall f rest values,
        ~ In comma f -> hd_error f <> Some dq ->
        parseCsvRow rest = Some values ->
        parseCsvRow (f ++ [comma] ++ rest) = Some (trim f :: values)).
Proof.
  repeat split.
  - intros row. exists (fields row). split; [apply parseCsvRow_fields|apply fields_trimmed].
  - intros v. rewrite parseCsvRow_fields, fields_eq.
    change ([dq] ++ escape_quotes v ++ [dq]) with (dq :: escape_quotes v ++ [dq]).
    rewrite row_step_quoted_last. unfold step_last, step_value.
    cbn [m_caps capture Nat.eqb]. now rewrite unescape_escape.
  - intros v rest values Hrest. rewrite parseCsvRow_fields in *.
    injection Hrest as <-. rewrite fields_eq.
    change ([dq] ++ escape_quotes v ++ [dq; comma] ++ rest)
      with (dq :: escape_quotes v ++ dq :: comma :: rest).
    rewrite row_step_quoted_more. unfold step_last, step_value.
    cbn [m_caps m_rest capture Nat.eqb]. now rewrite unescape_escape.
  - intros f Hcomma Hquote. rewrite parseCsvRow_fields, fields_eq.
    rewrite row_step_unquoted by exact Hquote. unfold plain_step.
    now rewrite field_span_whole by exact Hcomma.
  - intros f rest values Hcomma Hquote Hrest. rewrite parseCsvRow_fields in *.
    injection Hrest as <-. rewrite fields_eq.
    change (f ++ [comma] ++ rest) with (f ++ comma :: rest).
    rewrite row_step_unquoted.
    + unfold plain_step. now rewrite field_span_plain by exact Hcomma.
    + destruct f as [|c f]; [cbn; unfold comma, dq; congruence|exact Hquote].
Qed.

Lemma parseCsvRow_rfc4180_witness :
  parseCsvRow (lit "c") = Some [lit "c"]
  /\ parseCsvRow ([dq] ++ escape_quotes (lit "a, b" ++ [dq]) ++ [dq; comma] ++ lit "c")
     = Some [trim (lit "a, b" ++ [dq]); lit "c"]
  /\ ~ In comma (lit " x ") /\ hd_error (lit " x ") <> Some dq
  /\ parseCsvRow (lit " x ") = Some [trim (lit " x ")]
  /\ parseCsvRow (lit " x " ++ [comma] ++ lit "c") = Some [trim (lit " x "); lit "c"].
Proof.
  assert (Hc : parseCsvRow (lit "c") = Some [lit "c"]) by (vm_compute; reflexivity).
  assert (Hx : ~ In comma (lit " x ")) by (cbv; lia).
  assert (Hq : hd_error (lit " x ") <> Some dq) by (cbv; discriminate).
  destruct parseCsvRow_rfc4180 as (_ & _ & Hquoted & Hlast & Hplain).
  split; [exact Hc|].
  split; [exact (Hquoted (lit "a, b" ++ [dq]) (lit "c") [lit "c"] Hc)|].
  split; [exact Hx|]. split; [exact Hq|].
  split; [exact (Hlast (lit " x ") Hx Hq)|].
  exact (Hplain (lit " x ") (lit "c") [lit "c"] Hx Hq Hc).
Defined.

(** C9.  In the table of a CSV text that is not blank, every data row has as
    many cells as the header: a row with fewer fields gets empty cells at its
    right, a row with more fields loses those beyond the header's length.  In
    the cells of a data row every pipe has a backslash before it; the header
    cells are the fields as the tokenizer returns them. *)
Theorem table_rows_fit_header (csv first : str) (rest : list str) :
  trim csv <> [] ->
  lines (trim csv) = first :: rest ->
  exists header rows,
    parseCsvRow first = Some header
    /\ csvToMarkdownTable csv =
       Some (markdown_row header ++ [nl] ++ separator_row (length header) ++ [nl]
             ++ join [nl] (map markdown_row rows))
    /\ Forall2
         (fun line row =>
            exists cells,
              parseCsvRow line = Some cells
              /\ length row = length header
              /\ (length cells <= length header ->
                  row = map escape_cell cells
                        ++ repeat [] (length header - length cells))
              /\ (length header <= length cells ->
                  row = map escape_cell (firstn (length header) cells)))
         (filter nonblank rest) rows.
Proof.
  intros Hne Hl. exists (fields first).
  exists (map (data_cells (length (fields first))) (filter nonblank rest)).
  split; [apply parseCsvRow_fields|]. split.
  - rewrite (csvToMarkdownTable_eq csv Hl Hne), map_map. reflexivity.
  - induction (filter nonblank rest) as [|line ls IH]; constructor; [|exact IH].
    exists (fields line). unfold data_cells.
    split; [apply parseCsvRow_fields|]. split; [|split].
    + now rewrite length_map, fit_length.
    + intros H. rewrite fit_short by exact H. now rewrite map_app, map_repeat.
    + intros H. now rewrite fit_long by exact H.
Qed.

Lemma table_rows_fit_header_witness :
  trim (lit "a|b,c" ++ [nl] ++ lit "1|2" ++ [nl] ++ lit "3,4,5") <> []
  /\ lines (trim (lit "a|b,c" ++ [nl] ++ lit "1|2" ++ [nl] ++ lit "3,4,5"))
     = lit "a|b,c" :: [lit "1|2"; lit "3,4,5"]
  /\ exists header rows,
      parseCsvRow (lit "a|b,c") = Some header
      /\ csvToMarkdownTable (lit "a|b,c" ++ [nl] ++ lit "1|2" ++ [nl] ++ lit "3,4,5") =
         Some (markdown_row header ++ [nl] ++ separator_row (length header) ++ [nl]
               ++ join [nl] (map markdown_row rows))
      /\ Forall2
           (fun line row =>
              exists cells,
                parseCsvRow line = Some cells
                /\ length row = length header
                /\ (length cells <= length header ->
                    row = map escape_cell cells
                          ++ repeat [] (length header - length cells))
                /\ (length header <= length cells ->
                    row = map escape_cell (firstn (length header) cells)))
           (filter nonblank [lit "1|2"; lit "3,4,5"]) rows.
Proof.
  assert (Hne : trim (lit "a|b,c" ++ [nl] ++ lit "1|2" ++ [nl] ++ lit "3,4,5") <> [])
    by (vm_compute; discriminate).
  assert (Hl : lines (trim (lit "a|b,c" ++ [nl] ++ lit "1|2" ++ [nl] ++ lit "3,4,5"))
               = lit "a|b,c" :: [lit "1|2"; lit "3,4,5"])
    by (vm_compute; reflexivity).
  split; [exact Hne|]. split; [exact Hl|].
  exact (@table_rows_fit_header _ _ _ Hne Hl).
Defined.

(** The table of that text: the pipe of the header cell stays as it is, the
    pipe of the data cell gets its backslash, the short row is padded and the
    long row is cut. *)
Example table_rows_fit_header_sample :
  csvToMarkdownTable (lit "a|b,c" ++ [nl] ++ lit "1|2" ++ [nl] ++ lit "3,4,5")
  = Some (lit "| a|b | c |" ++ [nl] ++ lit "| --- | --- |" ++ [nl]
          ++ lit "| 1" ++ [bs] ++ lit "|2 |  |" ++ [nl] ++ lit "| 3 | 4 |").
Proof. vm_compute. reflexivity. Qed.

(** C3.  With combine mode off, or with no file, the combined document is the
    empty string.  Otherwise it is the sections of the files in list order,
    with a horizontal rule, [---] between blank lines, between one section and
    the next; a section is the heading of the file, a blank line, and the
    content of the file. *)
Theorem combinedMarkdown_sections :
  let section := fun file =>
    (lit "# " ++ sanitizeFilenameForHeader (name file)) ++ [nl; nl] ++ content file in
  let rule := [nl; nl] ++ lit "---" ++ [nl; nl] in
  (forall files, combinedMarkdown false files = [])
  /\ (forall isJoining, combinedMarkdown isJoining [] = [])
  /\ (forall file, combinedMarkdown true [file] = section file)
  /\ (forall file next files,
        combinedMarkdown true (file :: next :: files)
        = section file ++ rule ++ combinedMarkdown true (next :: files)).
Proof.
  intros section rule.
  split; [intros files; reflexivity|].
  split; [intros isJoining; unfold combinedMarkdown; now destruct isJoining|].
  split.
  - intros file. unfold combinedMarkdown, section. cbn [negb orb length Nat.eqb map join].
    now rewrite <- !app_assoc.
  - intros file next files. unfold combinedMarkdown, section, rule.
    cbn [negb orb length Nat.eqb map join]. now rewrite <- !app_assoc.
Qed.

(** C4.  The heading synthesizer puts a backslash before a comma too, which
    is not one of the characters the specification lists: the class of the
    pattern holds the range from plus to dot, and the comma lies in it. *)
Theorem sanitizeFilenameForHeader_escapes_comma :
  is_special comma = false
  /\ sanitizeFilenameForHeader (lit "a,b.md") = [97%N; bs; comma; 98%N]
  /\ lit "# " ++ sanitizeFilenameForHeader (lit "a,b.md")
     = lit "# a" ++ [bs] ++ lit ",b".
Proof.
  split; [|split]; vm_compute; reflexivity.
Qed.

(** C5.  A text file ([.md], [.markdown], [.csv]) of more than 5 MB is rejected
    with a message that names the file and the 5MB limit; an archive ([.zip])
    of more than 25 MB is rejected with a message that names the file and the
    25MB limit.  Dropped alone, the file leaves that message as the error.
    Whatever the batch it is dropped in, no record reaches the file list. *)
Theorem size_ceilings_enforced (race : list str -> str) (jszip : bool) (file : File) :
  (has_extensionb [lit ".zip"] (file_name file) = false ->
   has_extensionb text_exts (file_name file) = true ->
   (5 * 1024 * 1024 < file_size file)%N ->
   outcome (handleFile jszip file)
   = Rejected ([dq] ++ file_name file ++ [dq] ++ lit " is larger than 5MB.")
   /\ (forall st, length (files st) < MAX_FILES ->
       error (processFiles race jszip [file] st)
       = Some ([dq] ++ file_name file ++ [dq] ++ lit " is larger than 5MB."))
   /\ (forall droppedFiles st, In file droppedFiles ->
       files (processFiles race jszip droppedFiles st) = files st))
  /\ (has_extensionb [lit ".zip"] (file_name file) = true ->
      (25 * 1024 * 1024 < file_size file)%N ->
      outcome (handleFile jszip file)
      = Rejected (lit "ZIP " ++ [dq] ++ file_name file ++ [dq]
                  ++ lit " is larger than 25MB.")
      /\ (forall st, length (files st) < MAX_FILES ->
          error (processFiles race jszip [file] st)
          = Some (lit "ZIP " ++ [dq] ++ file_name file ++ [dq]
                  ++ lit " is larger than 25MB."))
      /\ (forall droppedFiles st, In file droppedFiles ->
          files (processFiles race jszip droppedFiles st) = files st)).
Proof.
  split.
  - intros Hzip Htext Hsize.
    pose proof (handleFile_file_too_large jszip file Hzip Htext Hsize) as Hp.
    split; [now rewrite Hp|]. split.
    + intros st Hroom. now apply processFiles_single_rejected.
    + intros droppedFiles st Hin.
      apply (@processFiles_rejected race jszip droppedFiles st file
               (file_too_large (file_name file)) Hin).
      now rewrite Hp.
  - intros Hzip Hsize.
    pose proof (handleFile_zip_too_large jszip file Hzip Hsize) as Hp.
    split; [now rewrite Hp|]. split.
    + intros st Hroom. now apply processFiles_single_rejected.
    + intros droppedFiles st Hin.
      apply (@processFiles_rejected race jszip droppedFiles st file
               (zip_too_large (file_name file)) Hin).
      now rewrite Hp.
Qed.

Lemma size_ceilings_enforced_witness :
  (outcome (handleFile true big_notes)
   = Rejected ([dq] ++ lit "Notes.MD" ++ [dq] ++ lit " is larger than 5MB.")
   /\ files (processFiles first_of true [note; big_notes] empty_state) = [])
  /\ (outcome (handleFile true big_archive)
      = Rejected (lit "ZIP " ++ [dq] ++ lit "docs.zip" ++ [dq]
                  ++ lit " is larger than 25MB.")
      /\ files (processFiles first_of true [big_archive; note] empty_state) = []).
Proof.
  destruct (size_ceilings_enforced first_of true big_notes) as [Htext _].
  destruct (size_ceilings_enforced first_of true big_archive) as [_ Hzip].
  split.
  - destruct Htext as (Hout & _ & Hfiles);
      [vm_compute; reflexivity|vm_compute; reflexivity|vm_compute; reflexivity|].
    split; [exact Hout|].
    apply (Hfiles [note; big_notes] empty_state). right. now left.
  - destruct Hzip as (Hout & _ & Hfiles);
      [vm_compute; reflexivity|vm_compute; reflexivity|].
    split; [exact Hout|].
    apply (Hfiles [big_archive; note] empty_state). now left.
Defined.

(** C6.  From an archive that JSZip expands and whose taken members can be
    read, the records are those of the members that are no directory and
    whose name ends in [.md], [.markdown] or [.csv], whatever the case, in the
    order of the archive; every other member is passed over.  With room in the
    list, these records are what the drop of the archive adds.  A file
    dropped directly whose name ends in none of [.md], [.markdown], [.csv],
    [.zip] resolves to no record at once, and a batch with it ends as the
    batch without it: no record and no error come from it. *)
Theorem archive_members_filtered (race : list str -> str) (file : File) :
  (forall entries,
      has_extensionb [lit ".zip"] (file_name file) = true ->
      (file_size file <= 25 * 1024 * 1024)%N ->
      file_zip file = Some entries ->
      Forall (fun zipEntry => entry_text zipEntry <> None)
             (filter member_kept entries) ->
      outcome (handleFile true file)
      = Resolved (map member_record (filter member_kept entries))
      /\ forall st,
          length (files st) < MAX_FILES ->
          length (files st) + length (filter member_kept entries) <= MAX_FILES ->
          files (processFiles race true [file] st)
          = files st ++ map member_record (filter member_kept entries)
          /\ error (processFiles race true [file] st) = None)
  /\ (forall jszip,
        has_extensionb (text_exts ++ [lit ".zip"]) (file_name file) = false ->
        handleFile jszip file = {| immediate := true; outcome := Resolved [] |}
        /\ forall before after st,
            processFiles race jszip (before ++ file :: after) st
            = processFiles race jszip (before ++ after) st).
Proof.
  split.
  - intros entries Hzip Hsize Hload Htext.
    pose proof (handleFile_zip file Hzip Hsize Hload Htext) as Hp.
    split; [now rewrite Hp|].
    intros st Hlt Hroom. apply (@processFiles_single_resolved race _ _ st _ _ Hp); [|exact Hlt].
    now rewrite length_map.
  - intros jszip Hnone.
    assert (Hsplit : has_extensionb [lit ".zip"] (file_name file) = false
                     /\ has_extensionb text_exts (file_name file) = false).
    { clear -Hnone. unfold has_extensionb in *.
      induction (file_name file) as [|c t IH]; cbn [any_suffix] in *;
        apply orb_false_iff in Hnone; destruct Hnone as [Hhere Hlater];
        unfold is_ext in Hhere; rewrite existsb_app in Hhere;
        apply orb_false_iff in Hhere; destruct Hhere as [Ht Hz];
        unfold is_ext; rewrite Ht, Hz; cbn [orb]; [now split|].
      now apply IH. }
    destruct Hsplit as [Hzip Htext].
    pose proof (handleFile_unsupported jszip file Hzip Htext) as Hp.
    split; [exact Hp|].
    intros before after st. apply processFiles_ignores. now rewrite Hp.
Qed.

Lemma archive_members_filtered_witness :
  (map name (map member_record (filter member_kept members))
   = [lit "docs/a.md"; lit "docs/t.CSV"]
   /\ outcome (handleFile true archive)
      = Resolved (map member_record (filter member_kept members))
   /\ files (processFiles first_of true [archive] empty_state)
      = map member_record (filter member_kept members))
  /\ (handleFile true picture = {| immediate := true; outcome := Resolved [] |}
      /\ processFiles first_of true [note; picture] empty_state
         = processFiles first_of true [note] empty_state).
Proof.
  destruct (archive_members_filtered first_of archive) as [Hzip _].
  destruct (archive_members_filtered first_of picture) as [_ Hother].
  split.
  - destruct (Hzip members) as (Hout & Hadd);
      [vm_compute; reflexivity|vm_compute; discriminate|reflexivity| |].
    + repeat constructor; cbn; discriminate.
    + split; [vm_compute; reflexivity|]. split; [exact Hout|].
      destruct (Hadd empty_state) as [Hfiles _].
      * unfold MAX_FILES. simpl. lia.
      * vm_compute. repeat constructor.
      * exact Hfiles.
  - destruct (Hother true) as (Hp & Hskip); [vm_compute; reflexivity|].
    split; [exact Hp|]. exact (Hskip [note] [] empty_state).
Defined.

(** C10.  A call of [processFiles] adds all of a batch or nothing: when a file
    of the batch fails (a text file over its limit, an archive over its limit
    or unreadable, a file that cannot be read), the call leaves the list as it
    found it and sets an error message.  The same holds for the part of the
    call after the reads, whatever happened to the list meanwhile. *)
Theorem processFiles_all_or_nothing (race : list str -> str) (jszip : bool)
  (droppedFiles : list File) (file : File) (st : AppState) :
  In file droppedFiles ->
  failure file ->
  (files (processFiles race jszip droppedFiles st) = files st
   /\ exists message, error (processFiles race jszip droppedFiles st) = Some message)
  /\ (forall filesLength,
        files (processFiles_complete race jszip filesLength droppedFiles st) = files st
        /\ exists message,
            error (processFiles_complete race jszip filesLength droppedFiles st)
            = Some message).
Proof.
  intros Hin Hfail. destruct (failure_rejects jszip Hfail) as (message & Hout).
  split.
  - exact (processFiles_rejected race jszip droppedFiles st file Hin Hout).
  - intros filesLength.
    exact (processFiles_complete_rejecting race jszip filesLength droppedFiles st
             file Hin Hout).
Qed.

Lemma processFiles_all_or_nothing_witness :
  In broken_archive [note; broken_archive; note]
  /\ failure broken_archive
  /\ files (processFiles first_of true [note; broken_archive; note] empty_state) = []
  /\ exists message,
      error (processFiles first_of true [note; broken_archive; note] empty_state)
      = Some message.
Proof.
  assert (Hin : In broken_archive [note; broken_archive; note]) by (right; now left).
  assert (Hfail : failure broken_archive).
  { apply zip_corrupt; [vm_compute; reflexivity|vm_compute; discriminate|reflexivity]. }
  split; [exact Hin|]. split; [exact Hfail|].
  exact (proj1 (@processFiles_all_or_nothing first_of true
                  [note; broken_archive; note] broken_archive empty_state Hin Hfail)).
Defined.

(** C8.  Two calls of [processFiles] that overlap take the list beyond 100
    entries: each call measures the room with the length the list had when
    the call started.  Sixty files are dropped, sixty more are dropped before
    the first sixty are read, then both calls complete: the list holds 120
    files and no error is shown. *)
Theorem overlapping_drops_exceed_limit (race : list str -> str) :
  length (files (app (run race true initial
                        [Drop (repeat note 60); Drop (repeat note 60);
                         Settle 0; Settle 0]))) = 120
  /\ MAX_FILES < 120
  /\ error (app (run race true initial
                   [Drop (repeat note 60); Drop (repeat note 60);
                    Settle 0; Settle 0])) = None.
Proof.
  split; [vm_compute; reflexivity|].
  split; [unfold MAX_FILES; lia|]. vm_compute. reflexivity.
Qed.

(** C7.  With the libraries of the page loaded, a list that is not empty and
    JSON output: in combine mode the artifact is the file [rag-combined.json]
    whose text is the serialization of the list of the name and content pairs
    of the records, in list order; without combine mode it is the archive
    [rag-json.zip] with, for every record in order, the serialization of its
    name and content pair under the name of the record without its extension,
    followed by [.json].  The [id] of a record plays no part. *)
Theorem json_output_pairs (w : window) (files : list UploadedFile) :
  files <> [] ->
  libraries_loaded w = true ->
  handleDownload w json_output true files
  = (None,
     Some (SaveBlob (lit "rag-combined.json") (lit "application/json")
             (stringify
                (JArray (map (fun file =>
                                JObject [(lit "name", JString (name file));
                                         (lit "content", JString (content file))])
                             files)) 2)))
  /\ handleDownload w json_output false files
     = (None,
        Some (SaveZip (lit "rag-json.zip")
                (map (fun file =>
                        (stem (name file) ++ lit ".json",
                         Text (stringify
                                 (JObject [(lit "name", JString (name file));
                                           (lit "content", JString (content file))])
                                 2)))
                     files)))
  /\ (forall others isJoining,
        map name others = map name files ->
        map content others = map content files ->
        handleDownload w json_output isJoining others
        = handleDownload w json_output isJoining files).
Proof.
  intros Hne Hw. split; [exact (@handleDownload_json_combined w files Hne Hw)|].
  split; [exact (@handleDownload_json_separate w files Hne Hw)|].
  intros others isJoining Hnames Hcontents.
  assert (Hne' : others <> []).
  { intros ->. destruct files; [congruence|discriminate]. }
  assert (Hsame : forall (B : Type) (g : str -> str -> B),
             map (fun file => g (name file) (content file)) others
             = map (fun file => g (name file) (content file)) files).
  { intros B g. clear -Hnames Hcontents. revert files Hnames Hcontents.
    induction others as [|o os IH]; intros [|f fs] Hn Hc; try discriminate;
      [reflexivity|].
    cbn [map] in *. injection Hn as Hn1 Hn2. injection Hc as Hc1 Hc2.
    now rewrite Hn1, Hc1, (IH fs Hn2 Hc2). }
  destruct isJoining.
  - rewrite (@handleDownload_json_combined w others Hne' Hw),
      (@handleDownload_json_combined w files Hne Hw).
    unfold name_content.
    now rewrite (Hsame _ (fun n c => JObject [(lit "name", JString n);
                                              (lit "content", JString c)])).
  - rewrite (@handleDownload_json_separate w others Hne' Hw),
      (@handleDownload_json_separate w files Hne Hw).
    unfold name_content.
    now rewrite (Hsame _ (fun n c =>
                   (stem n ++ lit ".json",
                    Text (stringify (JObject [(lit "name", JString n);
                                              (lit "content", JString c)]) 2)))).
Qed.

Lemma json_output_pairs_witness :
  two_records <> []
  /\ libraries_loaded all_loaded = true
  /\ handleDownload all_loaded json_output false two_records
     = (None,
        Some (SaveZip (lit "rag-json.zip")
                (map (fun file =>
                        (stem (name file) ++ lit ".json",
                         Text (stringify
                                 (JObject [(lit "name", JString (name file));
                                           (lit "content", JString (content file))])
                                 2)))
                     two_records))).
Proof.
  assert (Hne : two_records <> []) by (vm_compute; discriminate).
  assert (Hw : libraries_loaded all_loaded = true) by reflexivity.
  split; [exact Hne|]. split; [exact Hw|].
  exact (proj1 (proj2 (@json_output_pairs all_loaded two_records Hne Hw))).
Defined.

End Properties.

(** ** More about the tokenizer and the table *)

Module CsvMore.
Import Js JsFacts Csv CsvSpec CsvFacts CsvWriter.

Lemma step_plain_last f :
  ~ In comma f ->
  plain_step f = MState [] [(3, []); (2, f)].
Proof. intros H. unfold plain_step. now rewrite field_span_whole. Qed.

Lemma step_plain_more f rest :
  ~ In comma f ->
  plain_step (f ++ comma :: rest) = MState rest [(3, [comma]); (2, f)].
Proof. intros H. unfold plain_step. now rewrite field_span_plain. Qed.

Lemma fields_quoted_last v :
  fields (dq :: escape_quotes v ++ [dq]) = [trim v].
Proof.
  rewrite fields_eq, row_step_quoted_last. unfold step_last, step_value.
  cbn [m_caps capture Nat.eqb]. now rewrite unescape_escape.
Qed.

Lemma fields_quoted_more v rest :
  fields (dq :: escape_quotes v ++ dq :: comma :: rest) = trim v :: fields rest.
Proof.
  rewrite fields_eq, row_step_quoted_more. unfold step_last, step_value.
  cbn [m_caps m_rest capture Nat.eqb]. now rewrite unescape_escape.
Qed.

Lemma fields_plain_last f :
  ~ In comma f -> hd_error f <> Some dq -> fields f = [trim f].
Proof.
  intros Hc Hq. rewrite fields_eq, row_step_unquoted by exact Hq.
  now rewrite step_plain_last.
Qed.

Lemma fields_plain_more f rest :
  ~ In comma f -> hd_error f <> Some dq ->
  fields (f ++ comma :: rest) = trim f :: fields rest.
Proof.
  intros Hc Hq. rewrite fields_eq, row_step_unquoted.
  - now rewrite step_plain_more.
  - destruct f as [|c f]; [cbn; unfold comma, dq; congruence|exact Hq].
Qed.

(** What was written is what is read, up to the trimming. *)
Lemma fields_write_row : forall fs,
  fs <> [] -> Forall writable fs ->
  fields (write_row fs) = map (fun f => trim (field_value f)) fs.
Proof.
  unfold write_row.
  induction fs as [|f fs IH]; intros Hne Hok; [congruence|].
  inversion Hok as [|f' fs' Hf Hfs]; subst.
  destruct fs as [|g fs].
  - cbn [map join]. destruct f as [v|t]; cbn [field_text field_value].
    + apply fields_quoted_last.
    + destruct Hf as [Hc Hq]. now apply fields_plain_last.
  - change (join [comma] (map field_text (f :: g :: fs)))
      with (field_text f ++ [comma] ++ join [comma] (map field_text (g :: fs))).
    change (map (fun f0 => trim (field_value f0)) (f :: g :: fs))
      with (trim (field_value f) :: map (fun f0 => trim (field_value f0)) (g :: fs)).
    rewrite <- (IH ltac:(discriminate) Hfs).
    destruct f as [v|t]; cbn [field_text field_value].
    + rewrite <- !app_assoc. apply fields_quoted_more.
    + destruct Hf as [Hc Hq]. now apply fields_plain_more.
Qed.

(** A row without any quote has one field more than it has commas. *)
Lemma fields_count_commas : forall row,
  ~ In dq row -> length (fields row) = S (count_occ N.eq_dec row comma).
Proof.
  apply (str_length_ind
           (fun row => ~ In dq row -> length (fields row) = S (count_occ N.eq_dec row comma))).
  intros row IH Hq.
  rewrite fields_eq, row_step_unquoted.
  2:{ destruct row as [|c t]; [discriminate|]. cbn. intros [= ->]. apply Hq. now left. }
  unfold plain_step.
  pose proof (field_span_app row) as Happ.
  pose proof (field_span_stop row) as Hstop.
  pose proof (field_span_no_comma row) as Hno.
  destruct (field_span row) as [f r]. cbn [fst snd] in *.
  assert (Hcount : count_occ N.eq_dec row comma = count_occ N.eq_dec r comma).
  { rewrite <- Happ, count_occ_app.
    rewrite (proj1 (@count_occ_not_In char N.eq_dec f comma) Hno). reflexivity. }
  rewrite Hcount.
  destruct Hstop as [->|(r' & ->)].
  - reflexivity.
  - unfold step_last. cbn [m_caps m_rest capture Nat.eqb length].
    rewrite IH.
    + cbn [count_occ]. destruct (N.eq_dec comma comma); [reflexivity|congruence].
    + subst row. rewrite length_app. cbn [length]. lia.
    + intros H. apply Hq. subst row. apply in_or_app. right. now right.
Qed.

(** A quote that nothing closes is an ordinary character. *)
Lemma quoted_body_no_quote t : ~ In dq t -> quoted_body t = (t, []).
Proof.
  induction t as [|c t IH]; intros H; [reflexivity|]. cbn [quoted_body].
  destruct (N.eqb_spec c dq) as [->|Hc]; [elim H; now left|].
  rewrite IH; [reflexivity|]. intros Hin. apply H. now right.
Qed.

Lemma row_step_unclosed t : ~ In dq t -> row_step (dq :: t) = plain_step (dq :: t).
Proof.
  intros H. unfold row_step. rewrite N.eqb_refl, quoted_body_no_quote by exact H.
  reflexivity.
Qed.

Lemma fields_unclosed_last f :
  ~ In dq f -> ~ In comma f -> fields (dq :: f) = [trim (dq :: f)].
Proof.
  intros Hq Hc. rewrite fields_eq, row_step_unclosed by exact Hq.
  rewrite step_plain_last; [reflexivity|].
  intros [H|H]; [unfold dq, comma in H; discriminate|auto].
Qed.

Lemma fields_unclosed_more f rest :
  ~ In dq f -> ~ In dq rest -> ~ In comma f ->
  fields (dq :: f ++ comma :: rest) = trim (dq :: f) :: fields rest.
Proof.
  intros Hq Hr Hc. rewrite fields_eq, row_step_unclosed.
  - change (dq :: f ++ comma :: rest) with ((dq :: f) ++ comma :: rest).
    rewrite step_plain_more; [reflexivity|].
    intros [H|H]; [unfold dq, comma in H; discriminate|auto].
  - intros H. apply in_app_or in H. destruct H as [H|[H|H]]; auto.
    unfold dq, comma in H. discriminate.
Qed.

(** *** White space around the text *)

Lemma trim_start_ws pre s : all_ws pre = true -> trim_start (pre ++ s) = trim_start s.
Proof.
  unfold all_ws. induction pre as [|c pre IH]; intros H; [reflexivity|].
  cbn [forallb] in H. apply andb_true_iff in H. destruct H as [Hc H].
  cbn [app trim_start]. rewrite Hc. now apply IH.
Qed.

Lemma trim_end_ws s post : all_ws post = true -> trim_end (s ++ post) = trim_end s.
Proof.
  intros H. unfold trim_end. rewrite rev_app_distr, trim_start_ws; [reflexivity|].
  unfold all_ws in *. rewrite forallb_forall in *. intros c Hc. apply H.
  now apply in_rev.
Qed.

Lemma trim_start_app s post :
  trim_start (s ++ post) =
  if all_ws s then trim_start post else trim_start s ++ post.
Proof.
  unfold all_ws. induction s as [|c s IH]; [reflexivity|].
  cbn [app trim_start forallb]. destruct (is_ws c); [exact IH|reflexivity].
Qed.

Lemma trim_start_all_ws s : all_ws s = true -> trim_start s = [].
Proof. intros H. rewrite <- (app_nil_r s). now rewrite trim_start_ws. Qed.

Lemma trim_padded pre s post :
  all_ws pre = true -> all_ws post = true -> trim (pre ++ s ++ post) = trim s.
Proof.
  intros Hpre Hpost. unfold trim. rewrite trim_start_ws by exact Hpre.
  rewrite trim_start_app. destruct (all_ws s) eqn:Es.
  - now rewrite (trim_start_all_ws post Hpost), (trim_start_all_ws s Es).
  - now apply trim_end_ws.
Qed.

Lemma markdown_table_trim csv : markdown_table (trim csv) = markdown_table csv.
Proof. unfold markdown_table. now rewrite trim_idem. Qed.

End CsvMore.

(** ** The table, line by line *)

Module TableShape.
Import Js JsFacts Csv CsvSpec CsvFacts CsvWriter.

Lemma lines_from_one : forall s piece,
  ~ In nl s -> lines_from piece s = [piece ++ s].
Proof.
  induction s as [|c t IH]; intros piece H.
  - cbn. now rewrite app_nil_r.
  - cbn [lines_from].
    destruct (N.eqb_spec c nl) as [->|Hc]; [elim H; now left|].
    assert (Ht : ~ In nl t) by (intros Hin; apply H; now right).
    destruct t as [|c' t'].
    + rewrite (IH (piece ++ [c]) Ht). now rewrite <- app_assoc.
    + destruct (N.eqb_spec c' nl) as [->|Hc']; [elim Ht; now left|].
      rewrite andb_false_r. rewrite (IH (piece ++ [c]) Ht). now rewrite <- app_assoc.
Qed.

Lemma lines_from_break : forall a piece b,
  one_line a ->
  lines_from piece (a ++ nl :: b) = (piece ++ a) :: lines_from [] b.
Proof.
  induction a as [|c a IH]; intros piece b [Hnl Hcr].
  - cbn [app lines_from]. rewrite N.eqb_refl. now rewrite app_nil_r.
  - cbn [app lines_from].
    destruct (N.eqb_spec c nl) as [->|Hc]; [elim Hnl; now left|].
    assert (Ha : one_line a).
    { split; [intros Hin; apply Hnl; now right|].
      intros s' ->. apply (Hcr (c :: s')). reflexivity. }
    destruct a as [|c' a'].
    + cbn [app]. rewrite N.eqb_refl, andb_true_r.
      destruct (N.eqb_spec c cr) as [->|Hc2]; [elim (Hcr []); reflexivity|].
      cbn [lines_from]. now rewrite N.eqb_refl.
    + cbn [app].
      destruct (N.eqb_spec c' nl) as [->|Hc']; [elim Hnl; right; now left|].
      rewrite andb_false_r.
      change (c' :: a' ++ nl :: b) with ((c' :: a') ++ nl :: b).
      rewrite (IH (piece ++ [c]) b Ha). now rewrite <- app_assoc.
Qed.

Lemma lines_join : forall rows,
  rows <> [] -> Forall one_line rows -> lines (join [nl] rows) = rows.
Proof.
  unfold lines. induction rows as [|r rows IH]; intros Hne Hok; [congruence|].
  inversion Hok as [|r' rows' Hr Hrows]; subst.
  destruct rows as [|r2 rows].
  - cbn [join]. now rewrite lines_from_one by apply Hr.
  - change (join [nl] (r :: r2 :: rows)) with (r ++ nl :: join [nl] (r2 :: rows)).
    rewrite lines_from_break by exact Hr. cbn [app]. f_equal.
    apply IH; [discriminate|exact Hrows].
Qed.

(** The lines of a text hold no newline. *)
Lemma lines_from_no_nl : forall s piece,
  ~ In nl piece -> Forall (fun l => ~ In nl l) (lines_from piece s).
Proof.
  intros s. induction s as [s IH] using str_length_ind. intros piece Hp.
  destruct s as [|c t]; [now repeat constructor|].
  cbn [lines_from].
  assert (Hgrow : c <> nl -> ~ In nl (piece ++ [c])).
  { intros Hc Hin. apply in_app_or in Hin. destruct Hin as [Hin|[Hin|[]]]; auto. }
  destruct (N.eqb_spec c nl) as [->|Hc].
  - constructor; [exact Hp|]. apply IH; [simpl; lia|intros []].
  - destruct t as [|c' t'].
    + apply IH; [simpl; lia|now apply Hgrow].
    + destruct ((c =? cr) && (c' =? nl))%N.
      * constructor; [exact Hp|]. apply IH; [simpl; lia|intros []].
      * apply IH; [simpl; lia|now apply Hgrow].
Qed.

(** *** The characters of the fields come from the row *)

Lemma trim_start_within s c : In c (trim_start s) -> In c s.
Proof.
  induction s as [|a s IH]; [intros []|]. cbn [trim_start].
  destruct (is_ws a); [intros H; right; now apply IH|auto].
Qed.

Lemma trim_within s c : In c (trim s) -> In c s.
Proof.
  unfold trim, trim_end. intros H. apply in_rev in H.
  apply trim_start_within in H. apply in_rev in H. now apply trim_start_within.
Qed.

Lemma unescape_within : forall s c, In c (unescape s) -> In c s.
Proof.
  intros s. induction s as [s IH] using str_length_ind. intros c H.
  destruct s as [|a [|b t]]; [destruct H|exact H|].
  rewrite unescape_cons2 in H. destruct ((a =? dq) && (b =? dq))%N eqn:E.
  - apply andb_true_iff in E. destruct E as [Ea _]. apply N.eqb_eq in Ea. subst a.
    destruct H as [<-|H]; [now left|]. right. right. apply IH; [simpl; lia|exact H].
  - destruct H as [<-|H]; [now left|]. right. apply IH; [simpl; lia|exact H].
Qed.

Lemma plain_step_within s c :
  (In c (step_value (plain_step s)) -> In c s)
  /\ (In c (m_rest (plain_step s)) -> In c s).
Proof.
  unfold plain_step. pose proof (field_span_app s) as Happ.
  destruct (field_span s) as [f r]. cbn [fst snd] in Happ. subst s.
  destruct r as [|x r']; unfold step_value; cbn [m_caps m_rest capture Nat.eqb];
    split; intros H; try (now destruct H); apply in_or_app; auto.
  right. now right.
Qed.

Lemma row_step_within s c :
  (In c (step_value (row_step s)) -> In c s)
  /\ (In c (m_rest (row_step s)) -> In c s).
Proof.
  unfold row_step. destruct s as [|q s1]; [apply plain_step_within|].
  destruct (q =? dq)%N; [|apply plain_step_within].
  pose proof (quoted_body_app s1) as Happ.
  destruct (quoted_body s1) as [body r]. cbn [fst snd] in Happ. subst s1.
  destruct r as [|a [|x r']]; [apply plain_step_within| |].
  - unfold step_value. cbn [m_caps m_rest capture Nat.eqb]. split; [|intros []].
    intros H. apply unescape_within in H. right. apply in_or_app. now left.
  - destruct (x =? comma)%N; [|apply plain_step_within].
    unfold step_value. cbn [m_caps m_rest capture Nat.eqb]. split; intros H.
    + apply unescape_within in H. right. apply in_or_app. now left.
    + right. apply in_or_app. right. right. now right.
Qed.

Lemma fields_within : forall s v c, In v (fields s) -> In c v -> In c s.
Proof.
  intros s. induction s as [s IH] using str_length_ind. intros v c Hv Hc.
  rewrite fields_eq in Hv.
  destruct (row_step_within s c) as [Hval Hrest].
  destruct (step_last (row_step s)) eqn:E.
  - destruct Hv as [<-|[]]. apply Hval. now apply trim_within.
  - destruct Hv as [<-|Hv]; [apply Hval; now apply trim_within|].
    assert (Hlt : length (m_rest (row_step s)) < length s).
    { unfold step_last in E.
      destruct (row_step_shape s) as (sep & k & w & Ec & _ & Hsep). rewrite Ec in E.
      cbn [capture Nat.eqb] in E. destruct Hsep as [[-> _]|[_ Hlt]]; [discriminate|lia]. }
    apply row_step_within. apply (IH _ Hlt v c Hv Hc).
Qed.

(** *** The rows are lines *)

Lemma in_join : forall (sep : str) parts c,
  In c (join sep parts) -> In c sep \/ exists p, In p parts /\ In c p.
Proof.
  intros sep. induction parts as [|p parts IH]; intros c H; [destruct H|].
  destruct parts as [|p2 parts].
  - right. exists p. split; [now left|exact H].
  - change (join sep (p :: p2 :: parts)) with (p ++ sep ++ join sep (p2 :: parts)) in H.
    apply in_app_or in H. destruct H as [H|H]; [right; exists p; split; [now left|exact H]|].
    apply in_app_or in H. destruct H as [H|H]; [now left|].
    destruct (IH c H) as [Hs|(p' & Hp & Hc)]; [now left|].
    right. exists p'. split; [now right|exact Hc].
Qed.

Lemma markdown_row_one_line cells :
  (forall cell, In cell cells -> ~ In nl cell) -> one_line (markdown_row cells).
Proof.
  intros Hcells. unfold markdown_row. split.
  - intros H. apply in_app_or in H. destruct H as [H|H].
    { cbn in H. unfold nl in H. intuition discriminate. }
    apply in_app_or in H. destruct H as [H|H].
    + apply in_join in H. destruct H as [H|(cell & Hin & H)].
      * cbn in H. unfold nl in H. intuition discriminate.
      * exact (Hcells cell Hin H).
    + cbn in H. unfold nl in H. intuition discriminate.
  - intros s' H.
    change (lit " |") with ([32%N] ++ [pipe]) in H. rewrite !app_assoc in H.
    apply app_inj_tail in H. destruct H as [_ H]. unfold pipe, cr in H. discriminate.
Qed.

Lemma escape_cell_within cell c :
  In c (escape_cell cell) -> c = bs \/ c = pipe \/ In c cell.
Proof.
  unfold escape_cell. intros H. apply in_flat_map in H.
  destruct H as (x & Hx & H). destruct (N.eqb_spec x pipe) as [->|Hne].
  - destruct H as [<-|[<-|[]]]; auto.
  - destruct H as [<-|[]]; auto.
Qed.

Lemma in_firstn {A : Type} (n : nat) (l : list A) (x : A) :
  In x (firstn n l) -> In x l.
Proof.
  intros H. rewrite <- (firstn_skipn n l). apply in_or_app. now left.
Qed.

Lemma data_cells_no_nl width line cell :
  ~ In nl line -> In cell (data_cells width line) -> ~ In nl cell.
Proof.
  intros Hline Hin H. unfold data_cells in Hin. apply in_map_iff in Hin.
  destruct Hin as (raw & <- & Hraw).
  apply escape_cell_within in H.
  destruct H as [H|[H|H]]; [unfold nl, bs in H; discriminate|
                            unfold nl, pipe in H; discriminate|].
  unfold fit in Hraw. apply in_app_or in Hraw. destruct Hraw as [Hraw|Hraw].
  - apply Hline. apply (fields_within line raw nl); [|exact H].
    exact (in_firstn _ _ _ Hraw).
  - apply repeat_spec in Hraw. subst raw. destruct H.
Qed.

(** Cutting the table at its newlines gives back the header row, the
    separator row and the data rows. *)
Lemma markdown_table_lines csv first rest :
  trim csv <> [] ->
  lines (trim csv) = first :: rest ->
  lines (markdown_table csv)
  = markdown_row (fields first)
    :: separator_row (length (fields first))
    :: match filter nonblank rest with
       | [] => [[]]
       | kept => map (fun line => markdown_row (data_cells (length (fields first)) line))
                     kept
       end.
Proof.
  intros Hne Hl.
  assert (Hlines : Forall (fun l => ~ In nl l) (first :: rest)).
  { rewrite <- Hl. apply lines_from_no_nl. intros []. }
  inversion Hlines as [|x xs Hfirst Hrest]; subst.
  unfold markdown_table. destruct (trim csv) as [|c t] eqn:Et; [congruence|].
  rewrite Hl. unfold lines at 1.
  change (?h ++ [nl] ++ ?s ++ [nl] ++ ?r) with (h ++ nl :: s ++ nl :: r).
  rewrite lines_from_break.
  2:{ apply markdown_row_one_line. intros cell Hin H.
      apply Hfirst. exact (fields_within first cell nl Hin H). }
  rewrite lines_from_break.
  2:{ apply markdown_row_one_line. intros cell Hin H.
      apply repeat_spec in Hin. subst cell. cbn in H. unfold nl in H.
      intuition discriminate. }
  cbn [app]. do 2 f_equal.
  assert (Hkept : Forall (fun l => ~ In nl l) (filter nonblank rest)).
  { rewrite Forall_forall in *. intros l Hin. apply Hrest.
    apply filter_In in Hin. apply Hin. }
  destruct (filter nonblank rest) as [|k kept] eqn:Ek; [reflexivity|].
  apply lines_join; [discriminate|].
  rewrite Forall_forall in *. intros row Hrow. apply in_map_iff in Hrow.
  destruct Hrow as (line & <- & Hline). apply markdown_row_one_line.
  intros cell Hin. apply (data_cells_no_nl (length (fields first)) line).
  - now apply Hkept.
  - exact Hin.
Qed.

End TableShape.

(** ** More about headings, the preview, uploads and downloads *)

Module PageFacts.
Import Js JsFacts Heading HeadingSpec HeadingFacts HeadingReader.
Import App UploadSpec UploadFacts Json Download DownloadSpec DownloadFacts Preview.

(** *** Headings *)

Lemma unbackslash_bs c t : unbackslash (bs :: c :: t) = c :: unbackslash t.
Proof. reflexivity. Qed.

Lemma unbackslash_other c t : c <> bs -> unbackslash (c :: t) = c :: unbackslash t.
Proof. intros H. apply N.eqb_neq in H. cbn [unbackslash]. now rewrite H. Qed.

Lemma unbackslash_escaped s :
  unbackslash
    (flat_map (fun c => if (is_special c || (c =? comma)%N)%bool then [bs; c] else [c]) s)
  = s.
Proof.
  induction s as [|c s IH]; [reflexivity|]. cbn [flat_map].
  destruct (is_special c || (c =? comma)%N)%bool eqn:E.
  - change ([bs; c] ++ ?x) with (bs :: c :: x). now rewrite unbackslash_bs, IH.
  - change ([c] ++ ?x) with (c :: x). rewrite unbackslash_other, IH; [reflexivity|].
    intros ->. cbn in E. discriminate.
Qed.

Lemma unbackslash_sanitized name :
  unbackslash (sanitizeFilenameForHeader name) = strip_extension name.
Proof.
  now rewrite sanitizeFilenameForHeader_spec, unbackslash_escaped, strip_extension_stem.
Qed.

(** *** The combined document *)

Lemma join_app (sep : str) (a b : list str) :
  a <> [] -> b <> [] -> join sep (a ++ b) = join sep a ++ sep ++ join sep b.
Proof.
  intros Ha Hb. induction a as [|x a IH]; [congruence|].
  destruct a as [|y a].
  - destruct b as [|z b]; [congruence|]. reflexivity.
  - change (join sep ((x :: y :: a) ++ b)) with (x ++ sep ++ join sep ((y :: a) ++ b)).
    rewrite IH by discriminate.
    change (join sep (x :: y :: a)) with (x ++ sep ++ join sep (y :: a)).
    now rewrite <- !app_assoc.
Qed.

Lemma combinedMarkdown_eq files :
  files <> [] ->
  combinedMarkdown true files
  = join ([nl; nl] ++ lit "---" ++ [nl; nl])
         (map (fun file => lit "# " ++ sanitizeFilenameForHeader (name file)
                           ++ [nl; nl] ++ content file) files).
Proof. intros H. unfold combinedMarkdown. destruct files; [congruence|reflexivity]. Qed.

Lemma combinedMarkdown_starts files :
  files <> [] -> exists tail, combinedMarkdown true files = lit "# " ++ tail.
Proof.
  intros H. rewrite combinedMarkdown_eq by exact H.
  destruct files as [|f [|g fs]]; [congruence| |].
  - cbn [map join]. eexists. reflexivity.
  - cbn [map]. remember (map _ fs) as later.
    cbn [join]. rewrite <- !app_assoc. eexists. reflexivity.
Qed.

(** *** Uploads *)

Lemma resolved_promise_all race jszip : forall droppedFiles nested,
  Forall2 (fun file records => outcome (handleFile jszip file) = Resolved records)
          droppedFiles nested ->
  promise_all race (map (handleFile jszip) droppedFiles) = inl nested.
Proof.
  intros droppedFiles nested H.
  rewrite promise_all_resolves.
  - f_equal. induction H as [|file records fs rs Hf _ IH]; [reflexivity|].
    unfold resolutions in *. cbn [map flat_map]. now rewrite Hf, IH.
  - induction H as [|file records fs rs Hf _ IH]; constructor; [|exact IH].
    now exists records.
Qed.

Lemma slice_to_prefix {A : Type} (to : Z) (l : list A) :
  exists n, slice_to to l = firstn n l.
Proof. unfold slice_to. destruct (to <? 0)%Z; eexists; reflexivity. Qed.

Lemma processFiles_complete_prefix race jszip filesLength droppedFiles st :
  exists added,
    files (processFiles_complete race jszip filesLength droppedFiles st)
    = files st ++ added.
Proof.
  unfold processFiles_complete.
  destruct (promise_all race (map (handleFile jszip) droppedFiles)) as [nested|reason].
  - destruct (MAX_FILES <? filesLength + length (concat nested)).
    + eexists. reflexivity.
    + eexists. reflexivity.
  - exists []. cbn. now rewrite app_nil_r.
Qed.

Lemma mapM_None {A B : Type} (f : A -> option B) (l : list A) (a : A) :
  In a l -> f a = None -> mapM f l = None.
Proof.
  induction l as [|x l IH]; intros Hin Ha; [destruct Hin|].
  cbn [mapM]. destruct Hin as [->|Hin].
  - now rewrite Ha.
  - destruct (f x); [|reflexivity]. now rewrite IH.
Qed.

Lemma removeFile_eq fileId st :
  removeFile fileId st
  = {| files := filter (fun file => negb (eqb_str (id file) fileId)) (files st);
       error := error st; isLoading := isLoading st;
       statusMessage := statusMessage st |}.
Proof. reflexivity. Qed.

Lemma filter_all {A : Type} (p : A -> bool) (l : list A) :
  (forall a, In a l -> p a = true) -> filter p l = l.
Proof.
  induction l as [|a l IH]; intros H; [reflexivity|]. cbn [filter].
  rewrite (H a (or_introl eq_refl)). f_equal. apply IH. intros b Hb. apply H. now right.
Qed.

Lemma filter_one_out {A : Type} (key : A -> str) (k : str) : forall l,
  NoDup (map key l) ->
  (exists a, In a l /\ key a = k) ->
  S (length (filter (fun a => negb (eqb_str (key a) k)) l)) = length l.
Proof.
  induction l as [|a l IH]; intros Hnd (x & Hin & Hx); [destruct Hin|].
  cbn [map] in Hnd. inversion Hnd as [|k' ks Hnotin Hnd']; subst.
  cbn [filter length]. destruct (eqb_str (key a) (key x)) eqn:E.
  - apply eqb_str_eq in E. cbn [negb]. f_equal.
    rewrite filter_all; [reflexivity|]. intros b Hb.
    destruct (eqb_str (key b) (key x)) eqn:Eb; [|reflexivity].
    apply eqb_str_eq in Eb. elim Hnotin. rewrite E, <- Eb. now apply in_map.
  - cbn [negb length]. f_equal. apply IH; [exact Hnd'|].
    destruct Hin as [->|Hin].
    + assert (eqb_str (key x) (key x) = true) by now apply eqb_str_eq. congruence.
    + now exists x.
Qed.

(** *** Downloads *)




End PageFacts.

(** ** Further properties of the code *)

Module Extras.
Import Js JsFacts Csv CsvSpec CsvFacts CsvWriter CsvMore TableShape.
Import Heading HeadingSpec HeadingFacts HeadingReader.
Import App UploadSpec UploadFacts Json Download DownloadSpec DownloadFacts.
Import Preview PageFacts Samples MoreSamples.

(** X1.  A row written by the rules of RFC 4180 is read back by the
    tokenizer: for fields written between quotes with their quotes doubled, or
    written as they are when they hold no comma and do not start with a quote,
    joined by commas, [parseCsvRow] returns the values of the fields, trimmed,
    one by one and in order. *)
Theorem parseCsvRow_reads_written_row (fs : list csv_field) :
  fs <> [] ->
  Forall writable fs ->
  parseCsvRow (write_row fs) = Some (map (fun f => trim (field_value f)) fs).
Proof.
  intros Hne Hok. rewrite parseCsvRow_fields. f_equal. now apply fields_write_row.
Qed.

Lemma parseCsvRow_reads_written_row_witness :
  written_fields <> []
  /\ Forall writable written_fields
  /\ parseCsvRow (write_row written_fields)
     = Some (map (fun f => trim (field_value f)) written_fields).
Proof.
  assert (Hne : written_fields <> []) by (vm_compute; discriminate).
  assert (Hok : Forall writable written_fields).
  { repeat constructor; cbv; try lia; discriminate. }
  split; [exact Hne|]. split; [exact Hok|].
  exact (@parseCsvRow_reads_written_row written_fields Hne Hok).
Defined.

(** X2.  On a row without any double quote the tokenizer cuts at every comma:
    it returns one field more than the row has commas. *)
Theorem parseCsvRow_counts_commas (row : str) :
  ~ In dq row ->
  exists values,
    parseCsvRow row = Some values
    /\ length values = S (count_occ N.eq_dec row comma).
Proof.
  intros H. exists (fields row). split; [apply parseCsvRow_fields|].
  now apply fields_count_commas.
Qed.

Lemma parseCsvRow_counts_commas_witness :
  ~ In dq (lit "a,,b,")
  /\ exists values,
       parseCsvRow (lit "a,,b,") = Some values
       /\ length values = S (count_occ N.eq_dec (lit "a,,b,") comma).
Proof.
  assert (H : ~ In dq (lit "a,,b,")) by (cbv; lia).
  split; [exact H|]. exact (@parseCsvRow_counts_commas (lit "a,,b,") H).
Defined.

(** X3.  A quote that opens a field and that no later quote closes is an
    ordinary character: the field runs to the next comma, or to the end of the
    row, and keeps its quote. *)
Theorem parseCsvRow_unclosed_quote (f : str) :
  ~ In dq f ->
  ~ In comma f ->
  parseCsvRow (dq :: f) = Some [trim (dq :: f)]
  /\ forall rest values,
       ~ In dq rest ->
       parseCsvRow rest = Some values ->
       parseCsvRow (dq :: f ++ comma :: rest) = Some (trim (dq :: f) :: values).
Proof.
  intros Hq Hc. split.
  - rewrite parseCsvRow_fields. f_equal. now apply fields_unclosed_last.
  - intros rest values Hr Hrest. rewrite parseCsvRow_fields in *.
    injection Hrest as <-. f_equal. now apply fields_unclosed_more.
Qed.

Lemma parseCsvRow_unclosed_quote_witness :
  ~ In dq (lit "ab") /\ ~ In comma (lit "ab")
  /\ parseCsvRow (dq :: lit "ab") = Some [trim (dq :: lit "ab")]
  /\ parseCsvRow (dq :: lit "ab" ++ comma :: lit "c")
     = Some [trim (dq :: lit "ab"); lit "c"].
Proof.
  assert (Hq : ~ In dq (lit "ab")) by (cbv; lia).
  assert (Hc : ~ In comma (lit "ab")) by (cbv; lia).
  assert (Hr : ~ In dq (lit "c")) by (cbv; lia).
  assert (Hrest : parseCsvRow (lit "c") = Some [lit "c"]) by (vm_compute; reflexivity).
  split; [exact Hq|]. split; [exact Hc|].
  split; [exact (proj1 (@parseCsvRow_unclosed_quote (lit "ab") Hq Hc))|].
  exact (proj2 (@parseCsvRow_unclosed_quote (lit "ab") Hq Hc) (lit "c") [lit "c"] Hr Hrest).
Defined.

(** X4.  Every row has a field: the tokenizer never returns an empty list, so
    the header of a table has at least one cell. *)
Theorem parseCsvRow_at_least_one_field (row : str) :
  exists value others, parseCsvRow row = Some (value :: others).
Proof.
  rewrite parseCsvRow_fields. pose proof (fields_nonempty row) as H.
  destruct (fields row) as [|v vs]; [congruence|]. now exists v, vs.
Qed.

(** X5.  White space before and after the CSV text, blank lines included,
    does not change the table. *)
Theorem csvToMarkdownTable_ignores_padding (pre csv post : str) :
  all_ws pre = true ->
  all_ws post = true ->
  csvToMarkdownTable (pre ++ csv ++ post) = csvToMarkdownTable csv.
Proof.
  intros Hpre Hpost. rewrite !csvToMarkdownTable_total. f_equal.
  rewrite <- (markdown_table_trim (pre ++ csv ++ post)), <- (markdown_table_trim csv).
  now rewrite trim_padded.
Qed.

Lemma csvToMarkdownTable_ignores_padding_witness :
  all_ws [nl; 32%N; nl] = true /\ all_ws [cr; nl; 9%N] = true
  /\ csvToMarkdownTable ([nl; 32%N; nl] ++ stock_csv ++ [cr; nl; 9%N])
     = csvToMarkdownTable stock_csv.
Proof.
  assert (Hpre : all_ws [nl; 32%N; nl] = true) by reflexivity.
  assert (Hpost : all_ws [cr; nl; 9%N] = true) by reflexivity.
  split; [exact Hpre|]. split; [exact Hpost|].
  exact (@csvToMarkdownTable_ignores_padding [nl; 32%N; nl] stock_csv [cr; nl; 9%N]
           Hpre Hpost).
Defined.

(** X6.  Every row of the table is one line of it: cutting the table at its
    newlines gives the header row, the separator row and the data rows, in
    that order; with no data row an empty line ends the table. *)
Theorem csvToMarkdownTable_rows_are_lines (csv first : str) (rest : list str) :
  trim csv <> [] ->
  lines (trim csv) = first :: rest ->
  exists header table,
    parseCsvRow first = Some header
    /\ csvToMarkdownTable csv = Some table
    /\ lines table
       = markdown_row header
         :: separator_row (length header)
         :: match filter nonblank rest with
            | [] => [[]]
            | kept => map (fun line => markdown_row (data_cells (length header) line))
                          kept
            end.
Proof.
  intros Hne Hl. exists (fields first), (markdown_table csv).
  split; [apply parseCsvRow_fields|]. split; [apply csvToMarkdownTable_total|].
  now apply markdown_table_lines.
Qed.

Lemma csvToMarkdownTable_rows_are_lines_witness :
  trim stock_csv <> []
  /\ lines (trim stock_csv) = lit "name, qty" :: [lit "nut,3"; []; lit "bolt,4"]
  /\ exists header table,
      parseCsvRow (lit "name, qty") = Some header
      /\ csvToMarkdownTable stock_csv = Some table
      /\ lines table
         = markdown_row header
           :: separator_row (length header)
           :: match filter nonblank [lit "nut,3"; []; lit "bolt,4"] with
              | [] => [[]]
              | kept => map (fun line => markdown_row (data_cells (length header) line))
                            kept
              end.
Proof.
  assert (Hne : trim stock_csv <> []) by (vm_compute; discriminate).
  assert (Hl : lines (trim stock_csv) = lit "name, qty" :: [lit "nut,3"; []; lit "bolt,4"])
    by (vm_compute; reflexivity).
  split; [exact Hne|]. split; [exact Hl|].
  exact (@csvToMarkdownTable_rows_are_lines stock_csv (lit "name, qty")
           [lit "nut,3"; []; lit "bolt,4"] Hne Hl).
Defined.

(** X7.  The escaping of a heading loses nothing: reading every backslash as
    a mark on the character after it gives back the name without its
    extension, so two names with different stems get different headings. *)
Theorem sanitizeFilenameForHeader_reads_back (name : str) :
  unbackslash (sanitizeFilenameForHeader name) = strip_extension name
  /\ forall other,
       sanitizeFilenameForHeader name = sanitizeFilenameForHeader other ->
       strip_extension name = strip_extension other.
Proof.
  split; [apply unbackslash_sanitized|].
  intros other H. rewrite <- !unbackslash_sanitized. now rewrite H.
Qed.

Lemma sanitizeFilenameForHeader_reads_back_witness :
  sanitizeFilenameForHeader (lit "a_b.md") = sanitizeFilenameForHeader (lit "a_b.CSV")
  /\ strip_extension (lit "a_b.md") = strip_extension (lit "a_b.CSV").
Proof.
  assert (H : sanitizeFilenameForHeader (lit "a_b.md")
              = sanitizeFilenameForHeader (lit "a_b.CSV")) by (vm_compute; reflexivity).
  split; [exact H|].
  exact (proj2 (@sanitizeFilenameForHeader_reads_back (lit "a_b.md")) (lit "a_b.CSV") H).
Defined.

(** X8.  Stripping the extension takes the [.md], [.markdown] or [.csv] at the
    end of the name, in any case of letters, and only that one: what stands
    before it stays, an earlier extension included.  A name that ends in none
    of them is left as it is. *)
Theorem strip_extension_takes_last (base e name : str) :
  (is_ext text_exts e = true -> strip_extension (base ++ e) = base)
  /\ (has_extensionb text_exts name = false -> strip_extension name = name).
Proof.
  split.
  - intros He. rewrite strip_extension_stem. now apply stem_of_name.
  - intros Hn. rewrite strip_extension_stem. now apply cut_suffix_none.
Qed.

Lemma strip_extension_takes_last_witness :
  (is_ext text_exts (lit ".MarkDown") = true
   /\ strip_extension (lit "notes.md" ++ lit ".MarkDown") = lit "notes.md")
  /\ (has_extensionb text_exts (lit "notes.mdx") = false
      /\ strip_extension (lit "notes.mdx") = lit "notes.mdx").
Proof.
  assert (He : is_ext text_exts (lit ".MarkDown") = true) by reflexivity.
  assert (Hn : has_extensionb text_exts (lit "notes.mdx") = false) by reflexivity.
  split.
  - split; [exact He|].
    exact (proj1 (@strip_extension_takes_last (lit "notes.md") (lit ".MarkDown") []) He).
  - split; [exact Hn|].
    exact (proj2 (@strip_extension_takes_last [] [] (lit "notes.mdx")) Hn).
Defined.

(** X9.  The combined document of two lists one after the other is the
    combined document of the first, a horizontal rule, and the combined
    document of the second. *)
Theorem combinedMarkdown_of_two_lists (first second : list UploadedFile) :
  first <> [] ->
  second <> [] ->
  combinedMarkdown true (first ++ second)
  = combinedMarkdown true first
    ++ ([nl; nl] ++ lit "---" ++ [nl; nl])
    ++ combinedMarkdown true second.
Proof.
  intros H1 H2. rewrite !combinedMarkdown_eq; try assumption.
  - rewrite map_app. apply join_app; now destruct first, second.
  - now destruct first.
Qed.

Lemma combinedMarkdown_of_two_lists_witness :
  two_records <> []
  /\ combinedMarkdown true (two_records ++ two_records)
     = combinedMarkdown true two_records
       ++ ([nl; nl] ++ lit "---" ++ [nl; nl])
       ++ combinedMarkdown true two_records.
Proof.
  assert (H : two_records <> []) by (vm_compute; discriminate).
  split; [exact H|].
  exact (@combinedMarkdown_of_two_lists two_records two_records H H).
Defined.

(** X10.  The preview is computed when the pane shows it and emptied when it
    does not.  When combine mode is off or no file is listed, the preview
    becomes the empty string, whatever the libraries are.  When the pane
    shows the preview and the two libraries are loaded, the combined document
    is not empty and the preview becomes its sanitized rendering. *)
Theorem preview_follows_pane (parse sanitize : str -> str) (w : window)
  (isJoining : bool) (files : list UploadedFile) (previous : str) :
  (preview_shown isJoining files = false ->
   updatePreview parse sanitize w (combinedMarkdown isJoining files) previous = [])
  /\ (preview_shown isJoining files = true ->
      has_marked w = true ->
      has_DOMPurify w = true ->
      combinedMarkdown isJoining files <> []
      /\ updatePreview parse sanitize w (combinedMarkdown isJoining files) previous
         = sanitize (parse (combinedMarkdown isJoining files))).
Proof.
  unfold preview_shown. split.
  - intros H. unfold updatePreview.
    assert (E : combinedMarkdown isJoining files = []).
    { unfold combinedMarkdown. destruct isJoining; [|reflexivity].
      destruct files; [reflexivity|discriminate]. }
    rewrite E. now rewrite andb_false_r.
  - intros H Hm Hd. apply andb_true_iff in H. destruct H as [-> Hlen].
    assert (Hne : files <> []) by (intros ->; discriminate).
    destruct (@combinedMarkdown_starts files Hne) as (tail & E).
    unfold updatePreview. rewrite E, Hm, Hd. split; [discriminate|reflexivity].
Qed.

Lemma preview_follows_pane_witness :
  preview_shown false two_records = false
  /\ updatePreview (fun s => s) (fun s => s) all_loaded
       (combinedMarkdown false two_records) (lit "<p>old</p>") = []
  /\ preview_shown true two_records = true
  /\ updatePreview (fun s => s) (fun s => s) all_loaded
       (combinedMarkdown true two_records) (lit "<p>old</p>")
     = combinedMarkdown true two_records.
Proof.
  split; [reflexivity|].
  split; [exact (proj1 (preview_follows_pane (fun s => s) (fun s => s) all_loaded
                          false two_records (lit "<p>old</p>")) eq_refl)|].
  split; [reflexivity|].
  exact (proj2 (proj2 (preview_follows_pane (fun s => s) (fun s => s) all_loaded
                         true two_records (lit "<p>old</p>")) eq_refl eq_refl eq_refl)).
Defined.

(** X11.  A call of [processFiles] only appends: whatever the batch, the
    outcome of the reads and the length the call closed over, the list it
    leaves starts with the list it found. *)
Theorem processFiles_only_appends (race : list str -> str) (jszip : bool)
  (droppedFiles : list File) (st : AppState) :
  (exists added, files (processFiles race jszip droppedFiles st) = files st ++ added)
  /\ forall filesLength,
      exists added,
        files (processFiles_complete race jszip filesLength droppedFiles st)
        = files st ++ added.
Proof.
  split; [|intros filesLength; apply processFiles_complete_prefix].
  rewrite processFiles_eq. destruct (MAX_FILES <=? length (files st)).
  - exists []. cbn. now rewrite app_nil_r.
  - set (st1 := setIsLoading true _).
    exact (processFiles_complete_prefix race jszip (length (files st)) droppedFiles st1).
Qed.

(** X12.  The records enter the list in the order of the dropped files,
    whichever read ends first: when every file of the batch resolves and the
    list has room, the call appends the records of the first file, then those
    of the second, and so on, sets no error and ends the loading state. *)
Theorem processFiles_appends_in_order (race : list str -> str) (jszip : bool)
  (droppedFiles : list File) (nested : list (list UploadedFile)) (st : AppState) :
  Forall2 (fun file records => outcome (handleFile jszip file) = Resolved records)
          droppedFiles nested ->
  length (files st) < MAX_FILES ->
  length (files st) + length (concat nested) <= MAX_FILES ->
  files (processFiles race jszip droppedFiles st) = files st ++ concat nested
  /\ error (processFiles race jszip droppedFiles st) = None
  /\ isLoading (processFiles race jszip droppedFiles st) = false
  /\ statusMessage (processFiles race jszip droppedFiles st) = [].
Proof.
  intros Hres Hlt Hroom. pose proof (@resolved_promise_all race jszip droppedFiles nested Hres) as E.
  rewrite processFiles_eq.
  destruct (Nat.leb_spec MAX_FILES (length (files st))); [lia|].
  set (st1 := setIsLoading true _).
  destruct (@processFiles_complete_resolved race jszip (length (files st)) droppedFiles
              st1 nested E Hroom) as [Hf He].
  split; [exact Hf|]. split; [exact He|].
  unfold processFiles_complete. rewrite E.
  destruct (MAX_FILES <? length (files st) + length (concat nested)); split; reflexivity.
Qed.

Lemma processFiles_appends_in_order_witness :
  files (processFiles first_of true [note; archive; picture] empty_state)
  = concat [ [record_of (lit "5-0.5") (lit "n.md") (lit "x")];
             map member_record (filter member_kept members);
             [] ].
Proof.
  refine (proj1 (@processFiles_appends_in_order first_of true
                   [note; archive; picture]
                   [ [record_of (lit "5-0.5") (lit "n.md") (lit "x")];
                     map member_record (filter member_kept members);
                     [] ] empty_state _ _ _)).
  - repeat constructor; vm_compute; reflexivity.
  - unfold MAX_FILES. cbn. lia.
  - vm_compute. repeat constructor.
Defined.

(** X13.  A batch too large for the room left fills the list to the limit: a
    call that overlaps no other update appends the first records, as many as
    the list has room for, leaves the list with 100 entries and sets the
    error about the limit. *)
Theorem overflowing_batch_fills_list (race : list str -> str) (jszip : bool)
  (droppedFiles : list File) (nested : list (list UploadedFile)) (st : AppState) :
  Forall2 (fun file records => outcome (handleFile jszip file) = Resolved records)
          droppedFiles nested ->
  length (files st) < MAX_FILES ->
  MAX_FILES < length (files st) + length (concat nested) ->
  files (processFiles race jszip droppedFiles st)
  = files st ++ firstn (MAX_FILES - length (files st)) (concat nested)
  /\ length (files (processFiles race jszip droppedFiles st)) = 100
  /\ error (processFiles race jszip droppedFiles st)
     = Some (lit "Adding these files would exceed the limit of 100. Only a portion were added.").
Proof.
  intros Hres Hlt Hover. pose proof (@resolved_promise_all race jszip droppedFiles nested Hres) as E.
  destruct (@processFiles_fills_to_limit race jszip droppedFiles st nested E Hlt Hover)
    as [Hf He].
  split; [exact Hf|]. split; [|exact He].
  rewrite Hf, length_app, length_firstn. unfold MAX_FILES in *. lia.
Qed.

Lemma overflowing_batch_fills_list_witness :
  length (files (processFiles first_of true (repeat note 3)
                   (setFiles (fun _ => repeat (record_of [] (lit "n.md") []) 98)
                             empty_state))) = 100.
Proof.
  refine (proj1 (proj2 (@overflowing_batch_fills_list first_of true (repeat note 3)
                   (repeat [record_of (lit "5-0.5") (lit "n.md") (lit "x")] 3)
                   (setFiles (fun _ => repeat (record_of [] (lit "n.md") []) 98)
                             empty_state) _ _ _))).
  - repeat constructor; vm_compute; reflexivity.
  - vm_compute. repeat constructor.
  - vm_compute. repeat constructor.
Defined.

(** X14.  With 100 files in the list a call of [processFiles] reads nothing:
    it sets the error about the maximum and leaves the list, the loading flag
    and the status message as they are, whatever the batch holds. *)
Theorem full_list_refuses_batch (race : list str -> str) (jszip : bool)
  (droppedFiles : list File) (st : AppState) :
  MAX_FILES <= length (files st) ->
  processFiles race jszip droppedFiles st
  = {| files := files st;
       error := Some (lit "You have reached the maximum of 100 files.");
       isLoading := isLoading st;
       statusMessage := statusMessage st |}.
Proof.
  intros H. rewrite processFiles_eq.
  destruct (Nat.leb_spec MAX_FILES (length (files st))); [reflexivity|lia].
Qed.

Lemma full_list_refuses_batch_witness :
  MAX_FILES <= length (files full_state)
  /\ processFiles first_of true [big_notes; note] full_state
     = {| files := files full_state;
          error := Some (lit "You have reached the maximum of 100 files.");
          isLoading := false;
          statusMessage := [] |}.
Proof.
  assert (H : MAX_FILES <= length (files full_state)) by (vm_compute; repeat constructor).
  split; [exact H|].
  exact (@full_list_refuses_batch first_of true [big_notes; note] full_state H).
Defined.

(** X15.  As long as every call of [processFiles] completes before the next
    event (a drop, the removal of a file, Clear All), the list never holds
    more than 100 files. *)
Theorem calls_one_at_a_time_keep_limit (race : list str -> str) (jszip : bool)
  (p : page) (evs : list event) :
  one_at_a_time evs = true ->
  in_flight p = [] ->
  length (files (app p)) <= MAX_FILES ->
  length (files (app (run race jszip p evs))) <= MAX_FILES.
Proof.
  intros Hseq Hnone Hcap.
  exact (@one_at_a_time_within_limit race jszip (length evs) evs p (le_n _)
           Hseq Hnone Hcap).
Qed.

Lemma calls_one_at_a_time_keep_limit_witness :
  length (files (app (run first_of true initial
                        [Drop (repeat note 60); Settle 0; RemoveFile (lit "none");
                         Drop (repeat note 60); Settle 0]))) <= MAX_FILES.
Proof.
  refine (@calls_one_at_a_time_keep_limit first_of true initial
            [Drop (repeat note 60); Settle 0; RemoveFile (lit "none");
             Drop (repeat note 60); Settle 0] _ _ _).
  - reflexivity.
  - reflexivity.
  - unfold MAX_FILES. cbn. lia.
Defined.

(** X16.  [removeFile] takes out the records that carry the given id and no
    other: the records left are those of the list with another id, a second
    removal changes nothing, a removal of an id that no record carries changes
    nothing, and when the ids of the list are distinct and one record carries
    the id, the list gets shorter by one. *)
Theorem removeFile_takes_that_id (fileId : str) (st : AppState) :
  (forall file,
      In file (files (removeFile fileId st)) <-> In file (files st) /\ id file <> fileId)
  /\ removeFile fileId (removeFile fileId st) = removeFile fileId st
  /\ ((forall file, In file (files st) -> id file <> fileId) ->
      removeFile fileId st = st)
  /\ (NoDup (map id (files st)) ->
      (exists file, In file (files st) /\ id file = fileId) ->
      S (length (files (removeFile fileId st))) = length (files st)).
Proof.
  split; [|split; [|split]].
  - intros file. rewrite removeFile_eq. cbn [files]. rewrite filter_In.
    destruct (eqb_str (id file) fileId) eqn:E.
    + apply eqb_str_eq in E. cbn. split; [intros [_ H]; discriminate|].
      intros [_ H]. contradiction.
    + cbn. split; intros [Hin _]; (split; [exact Hin|]); [|reflexivity].
      intros H. apply eqb_str_eq in H. congruence.
  - rewrite !removeFile_eq. cbn [files error isLoading statusMessage]. f_equal.
    apply filter_all. intros file Hin. apply filter_In in Hin. apply Hin.
  - intros Hnone. rewrite removeFile_eq. destruct st as [fs e l m]. cbn in *. f_equal.
    apply filter_all. intros file Hin.
    destruct (eqb_str (id file) fileId) eqn:E; [|reflexivity].
    apply eqb_str_eq in E. elim (Hnone file Hin E).
  - intros Hnd Hex. rewrite removeFile_eq. cbn [files]. now apply filter_one_out.
Qed.

Lemma removeFile_takes_that_id_witness :
  NoDup (map id (files two_state))
  /\ S (length (files (removeFile (lit "a.md-2-0.25") two_state)))
     = length (files two_state).
Proof.
  assert (Hnd : NoDup (map id (files two_state))).
  { cbn. repeat constructor; cbn; intuition discriminate. }
  split; [exact Hnd|].
  refine (proj2 (proj2 (proj2 (@removeFile_takes_that_id (lit "a.md-2-0.25") two_state)))
            Hnd _).
  eexists. split; [right; left; reflexivity|reflexivity].
Defined.

(** X17.  Without the JSZip library every archive within the size limit is
    refused at once with the message about the library, and a batch that
    holds such an archive adds nothing to the list. *)
Theorem archive_needs_library (race : list str -> str) (file : File) :
  has_extensionb [lit ".zip"] (file_name file) = true ->
  (file_size file <= 25 * 1024 * 1024)%N ->
  handleFile false file
  = {| immediate := true;
       outcome := Rejected (lit "ZIP library not loaded. Please refresh.") |}
  /\ forall droppedFiles st,
      In file droppedFiles ->
      files (processFiles race false droppedFiles st) = files st.
Proof.
  intros Hzip Hsize. pose proof (handleFile_zip_unloaded file Hzip Hsize) as Hp.
  split; [exact Hp|]. intros droppedFiles st Hin.
  apply (@processFiles_rejected race false droppedFiles st file
           (lit "ZIP library not loaded. Please refresh.") Hin).
  now rewrite Hp.
Qed.

Lemma archive_needs_library_witness :
  has_extensionb [lit ".zip"] (file_name small_archive) = true
  /\ handleFile false small_archive
     = {| immediate := true;
          outcome := Rejected (lit "ZIP library not loaded. Please refresh.") |}
  /\ files (processFiles first_of false [note; small_archive] empty_state) = [].
Proof.
  assert (Hzip : has_extensionb [lit ".zip"] (file_name small_archive) = true)
    by reflexivity.
  assert (Hsize : (file_size small_archive <= 25 * 1024 * 1024)%N)
    by (vm_compute; discriminate).
  destruct (@archive_needs_library first_of small_archive Hzip Hsize) as [Hp Hfiles].
  split; [exact Hzip|]. split; [exact Hp|].
  apply (Hfiles [note; small_archive] empty_state). right. now left.
Defined.

(** X18.  One taken member that cannot be read fails the whole archive: the
    promise of the archive rejects with the message about a corrupt ZIP file,
    and the members that were read are not added either. *)
Theorem unreadable_member_fails_archive (race : list str -> str) (file : File)
  (entries : list ZipEntry) (zipEntry : ZipEntry) :
  has_extensionb [lit ".zip"] (file_name file) = true ->
  (file_size file <= 25 * 1024 * 1024)%N ->
  file_zip file = Some entries ->
  In zipEntry entries ->
  member_kept zipEntry = true ->
  entry_text zipEntry = None ->
  outcome (handleFile true file)
  = Rejected (lit "Failed to process ZIP file " ++ [dq] ++ file_name file ++ [dq]
              ++ lit ". It may be corrupt.")
  /\ forall droppedFiles st,
      In file droppedFiles ->
      files (processFiles race true droppedFiles st) = files st.
Proof.
  intros Hzip Hsize Hload Hin Hkept Htext.
  assert (Hp : outcome (handleFile true file) = Rejected (zip_failed (file_name file))).
  { unfold handleFile. rewrite test_zip, Hzip.
    destruct (N.ltb_spec MAX_ZIP_FILE_SIZE_BYTES (file_size file)) as [Hbig|_].
    { unfold MAX_ZIP_FILE_SIZE_BYTES, MAX_ZIP_FILE_SIZE_MB in Hbig. lia. }
    cbn [negb]. rewrite Hload.
    rewrite (@mapM_None _ _ zip_member_record (filter zip_member_kept entries) zipEntry).
    - reflexivity.
    - apply filter_In. split; [exact Hin|]. now rewrite zip_member_kept_spec.
    - unfold zip_member_record. now rewrite Htext. }
  split; [exact Hp|]. intros droppedFiles st Hd.
  exact (proj1 (@processFiles_rejected race true droppedFiles st file
                  (zip_failed (file_name file)) Hd Hp)).
Qed.

Lemma unreadable_member_fails_archive_witness :
  outcome (handleFile true half_archive)
  = Rejected (lit "Failed to process ZIP file " ++ [dq] ++ lit "half.zip" ++ [dq]
              ++ lit ". It may be corrupt.")
  /\ files (processFiles first_of true [half_archive] empty_state) = [].
Proof.
  destruct (@unreadable_member_fails_archive first_of half_archive
              [ {| entry_name := lit "a.md"; entry_dir := false;
                   entry_text := Some (lit "# a"); entry_stamp := lit "8-0.1" |};
                {| entry_name := lit "b.csv"; entry_dir := false;
                   entry_text := None; entry_stamp := lit "8-0.2" |} ]
              {| entry_name := lit "b.csv"; entry_dir := false;
                 entry_text := None; entry_stamp := lit "8-0.2" |})
    as [Hp Hfiles].
  - reflexivity.
  - vm_compute. discriminate.
  - reflexivity.
  - right. now left.
  - reflexivity.
  - reflexivity.
  - split; [exact Hp|]. apply (Hfiles [half_archive] empty_state). now left.
Defined.





(** X21.  The layout of the combined JSON: an opening bracket on a line of its
    own, every record as an object indented by two spaces, with its name and
    its content on lines indented by four spaces, a comma between one object
    and the next, and a closing bracket on a line of its own. *)
Theorem combined_json_layout (w : window) (files : list UploadedFile) :
  files <> [] ->
  libraries_loaded w = true ->
  handleDownload w json_output true files
  = (None,
     Some (SaveBlob (lit "rag-combined.json") (lit "application/json")
             (lit "[" ++ [nl] ++ lit "  "
              ++ join (lit "," ++ [nl] ++ lit "  ")
                   (map (fun file =>
                           lit "{" ++ [nl]
                           ++ lit "    " ++ QuoteJSONString (lit "name") ++ lit ": "
                           ++ QuoteJSONString (name file) ++ lit "," ++ [nl]
                           ++ lit "    " ++ QuoteJSONString (lit "content") ++ lit ": "
                           ++ QuoteJSONString (content file) ++ [nl]
                           ++ lit "  }") files)
              ++ [nl] ++ lit "]"))).
Proof.
  intros Hne Hw. rewrite (@handleDownload_json_combined w files Hne Hw).
  rewrite (@stringify_records files Hne). reflexivity.
Qed.

Lemma combined_json_layout_witness :
  two_records <> [] /\ libraries_loaded all_loaded = true
  /\ handleDownload all_loaded json_output true two_records
     = (None,
        Some (SaveBlob (lit "rag-combined.json") (lit "application/json")
                (lit "[" ++ [nl] ++ lit "  "
                 ++ join (lit "," ++ [nl] ++ lit "  ")
                      (map (fun file =>
                              lit "{" ++ [nl]
                              ++ lit "    " ++ QuoteJSONString (lit "name") ++ lit ": "
                              ++ QuoteJSONString (name file) ++ lit "," ++ [nl]
                              ++ lit "    " ++ QuoteJSONString (lit "content") ++ lit ": "
                              ++ QuoteJSONString (content file) ++ [nl]
                              ++ lit "  }") two_records)
                 ++ [nl] ++ lit "]"))).
Proof.
  assert (Hne : two_records <> []) by (vm_compute; discriminate).
  assert (Hw : libraries_loaded all_loaded = true) by reflexivity.
  split; [exact Hne|]. split; [exact Hw|].
  exact (@combined_json_layout all_loaded two_records Hne Hw).
Defined.

End Extras.

(** ** The first version *)

Module FirstVersionFacts.
Import Js HeadingFacts FirstVersion.






End FirstVersionFacts.

